(** * Interval export of a speedscope profile

    A shallow embedding of the interval-export pipeline of the
    "Send to LLM" dialog:

    - [filterEventsWithContext]  (src/views/interval-selector.tsx,
      also src/views/application.tsx and the newer dialog kept in
      src/config/api-config.ts): the interval filter with synthetic
      boundary events;
    - [getIndexForFrame]: the frame interner local to one export;
    - [compressFramesAndRemap] (newer dialog): the frame compactor;
    - [handleExportJson]: the part of the export that computes the
      exported profile from the encoded event stream.

    Numbers.  A JavaScript [number] is modelled by the decimal number that
    [toString] prints for it, so that [toString], [parseInt] and the
    comparisons of the code are exact in the model: event timestamps are
    integers ([Z]; the encoder stores [parseInt(value.toString())]), window
    bounds are arbitrary rationals ([Q]; they come from the viewport
    rectangle of the flamegraph and are fractional in general).
    [Number.prototype.toString] prints positional notation for 0 and for
    1e-6 <= |x| < 1e21, where [parseInt] reads the integer part, and
    exponent notation otherwise, where [parseInt] reads the digit in front
    of the [.] or the [e]: [parseIntOfToString] follows both.  The one sum
    of fractional numbers in the code, in [sendToAPI], goes through an
    explicit addition, since binary64 rounds it; the differences the code
    takes are differences of event times, which are integers. *)

From Stdlib Require Import ZArith QArith Qabs Qminmax Lia Lqa List.
From Stdlib Require Import Permutation Sorted.
From stdpp Require Import gmap strings list fin_maps.

Local Open Scope Z_scope.

(* ===================================================================== *)
(** * Part I: the model                                                   *)
(* ===================================================================== *)

(** ** Events *)

(** [type: 'O' | 'C'] of the evented file format. *)
Inductive EventType : Type :=
| OpenFrame   (* 'O' *)
| CloseFrame. (* 'C' *)

#[global] Instance EventType_eq_dec : EqDecision EventType.
Proof. solve_decision. Defined.

(** [{type, frame, at}]; [at] is spelled [at_] because [at] is reserved. *)
Record Event : Type := mkEvent {
  type  : EventType;
  frame : nat;
  at_   : Z
}.

#[global] Instance Event_eq_dec : EqDecision Event.
Proof. solve_decision. Defined.

(** ** Numbers *)

(** [Number.prototype.toString] prints positional notation ("0", "200.5",
    "0.000001") for 0 and for 1e-6 <= |x| < 1e21, and exponent notation
    ("5e-7", "1.5e+21") for every other number. *)
Definition printsPositional (x : Q) : bool :=
  Qeq_bool x 0 ||
  (Qle_bool (1 # 1000000) (Qabs x) &&
   negb (Qle_bool (inject_Z (10 ^ 21)) (Qabs x))).

(** The integer part of a number, truncated toward zero: what [parseInt]
    reads from positional notation, where it stops at the [.]. *)
Definition integerPart (x : Q) : Z :=
  Z.quot (Qnum x) (Z.pos (Qden x)).

(** The first significant digit of a/b for 0 < a < b: a is multiplied by
    10 until the quotient has an integer part. *)
Fixpoint leadingDigitBelowOne (fuel : nat) (a b : Z) : Z :=
  match fuel with
  | O => a / b
  | S fuel' =>
      if b <=? a then a / b else leadingDigitBelowOne fuel' (10 * a) b
  end.

(** The first significant digit of a/b for 0 < b <= a: b is multiplied by
    10 until the quotient has one digit. *)
Fixpoint leadingDigitAboveOne (fuel : nat) (a b : Z) : Z :=
  match fuel with
  | O => a / b
  | S fuel' =>
      if a <? 10 * b then a / b else leadingDigitAboveOne fuel' a (10 * b)
  end.

(** The first significant digit of a number other than 0; the fuel is the
    number of binary digits of the denominator or the numerator, which is
    at least the number of steps. *)
Definition leadingDigit (x : Q) : Z :=
  let a := Z.abs (Qnum x) in
  let b := Z.pos (Qden x) in
  if a <? b then leadingDigitBelowOne (Z.to_nat (Z.log2 b) + 1) a b
  else leadingDigitAboveOne (Z.to_nat (Z.log2 a) + 1) a b.

(** [parseInt(x.toString())] on a number.  In positional notation
    [parseInt] reads the integer part.  In exponent notation, "d.ddde-7" or
    "de+21" with an optional sign in front, it reads the sign and the
    digit d and stops at the [.] or the [e]. *)
Definition parseIntOfToString (x : Q) : Z :=
  if printsPositional x then integerPart x
  else Z.sgn (Qnum x) * leadingDigit x.

(** [event.at >= intervalStart && event.at <= intervalEnd] *)
Definition inInterval (intervalStart intervalEnd : Q) (event : Event) : bool :=
  Qle_bool intervalStart (inject_Z (at_ event)) &&
  Qle_bool (inject_Z (at_ event)) intervalEnd.

(** ** The per-frame state map of the interval filter *)

(** [{hasOpen, hasClose, openTime?, closeTime?}] *)
Record FrameState : Type := mkFrameState {
  hasOpen   : bool;
  hasClose  : bool;
  openTime  : option Z;
  closeTime : option Z
}.

(** A JavaScript [Map<number, V>] iterates in insertion order, and the
    second pass of the filter iterates over it: the map is an association
    list in insertion order, without duplicate keys. *)
Definition FrameStates : Type := list (nat * FrameState).

(** [m.has(k)] *)
Fixpoint mapHas (k : nat) (m : FrameStates) : bool :=
  match m with
  | [] => false
  | (k', _) :: m' => if decide (k' = k) then true else mapHas k m'
  end.

(** [m.get(k)] *)
Fixpoint mapGet (k : nat) (m : FrameStates) : option FrameState :=
  match m with
  | [] => None
  | (k', v) :: m' => if decide (k' = k) then Some v else mapGet k m'
  end.

(** [m.set(k, v)]: an existing key keeps its place, a new key goes last. *)
Fixpoint mapSet (k : nat) (v : FrameState) (m : FrameStates) : FrameStates :=
  match m with
  | [] => [(k, v)]
  | (k', v') :: m' =>
      if decide (k' = k) then (k, v) :: m' else (k', v') :: mapSet k v m'
  end.

(** In-place mutation of the object stored under [k]
    ([const frameState = frameStates.get(k)!; frameState.x = ...]). *)
Fixpoint mapMutate (k : nat) (f : FrameState → FrameState) (m : FrameStates)
  : FrameStates :=
  match m with
  | [] => []
  | (k', v') :: m' =>
      if decide (k' = k) then (k', f v') :: m' else (k', v') :: mapMutate k f m'
  end.

(** [frameState.hasOpen = true; frameState.openTime = event.at] *)
Definition markOpen (t : Z) (s : FrameState) : FrameState :=
  {| hasOpen := true; hasClose := hasClose s;
     openTime := Some t; closeTime := closeTime s |}.

(** [frameState.hasClose = true; frameState.closeTime = event.at] *)
Definition markClose (t : Z) (s : FrameState) : FrameState :=
  {| hasOpen := hasOpen s; hasClose := true;
     openTime := openTime s; closeTime := Some t |}.

(** [{hasOpen: false, hasClose: false}] *)
Definition initialState : FrameState :=
  {| hasOpen := false; hasClose := false; openTime := None; closeTime := None |}.

(** ** Interval filter: first pass *)

(** The three locals the first loop updates. *)
Record Selection : Type := mkSelection {
  framesInInterval : gset nat;
  frameStates      : FrameStates;
  filteredEvents   : list Event
}.

Definition emptySelection : Selection :=
  {| framesInInterval := ∅; frameStates := []; filteredEvents := [] |}.

(** One iteration of [for (const event of events)]. *)
Definition selectEvent (intervalStart intervalEnd : Q)
    (s : Selection) (event : Event) : Selection :=
  if inInterval intervalStart intervalEnd event then
    let inInt := framesInInterval s ∪ {[ frame event ]} in
    let states :=
      if mapHas (frame event) (frameStates s) then frameStates s
      else mapSet (frame event) initialState (frameStates s) in
    match type event with
    | OpenFrame =>
        {| framesInInterval := inInt;
           frameStates := mapMutate (frame event) (markOpen (at_ event)) states;
           filteredEvents := filteredEvents s ++ [event] |}
    | CloseFrame =>
        {| framesInInterval := inInt;
           frameStates := mapMutate (frame event) (markClose (at_ event)) states;
           filteredEvents := filteredEvents s ++ [event] |}
    end
  else s.

Definition firstPass (events : list Event) (intervalStart intervalEnd : Q)
  : Selection :=
  fold_left (selectEvent intervalStart intervalEnd) events emptySelection.

(** ** Interval filter: second pass *)

(** One iteration of [for (const [frameId, frameState] of frameStates)]:
    the events it pushes onto [syntheticEvents]. *)
Definition syntheticFor (intervalStart intervalEnd : Q)
    (entry : nat * FrameState) : list Event :=
  let '(frameId, frameState) := entry in
  if hasOpen frameState && negb (hasClose frameState) then
    [ {| type := CloseFrame; frame := frameId;
         at_ := parseIntOfToString intervalEnd |} ]
  else if negb (hasOpen frameState) && hasClose frameState then
    [ {| type := OpenFrame; frame := frameId;
         at_ := parseIntOfToString intervalStart |} ]
  else [].

Definition secondPass (intervalStart intervalEnd : Q) (states : FrameStates)
  : list Event :=
  flat_map (syntheticFor intervalStart intervalEnd) states.

(** ** Sorting *)

(** [xs.sort((a, b) => a.at - b.at)]: [Array.prototype.sort] is stable, so
    the result is the unique stable arrangement by [at]; a stable insertion
    sort computes it. *)
Fixpoint insertByAt (x : Event) (l : list Event) : list Event :=
  match l with
  | [] => [x]
  | y :: l' =>
      if (at_ x <=? at_ y)%Z then x :: y :: l' else y :: insertByAt x l'
  end.

Fixpoint sortByAt (l : list Event) : list Event :=
  match l with
  | [] => []
  | x :: l' => insertByAt x (sortByAt l')
  end.

(** ** The interval filter *)

Definition syntheticEvents (events : list Event) (intervalStart intervalEnd : Q)
  : list Event :=
  secondPass intervalStart intervalEnd
    (frameStates (firstPass events intervalStart intervalEnd)).

Definition filterEventsWithContext (events : list Event)
    (intervalStart intervalEnd : Q) : list Event :=
  let selection := firstPass events intervalStart intervalEnd in
  let synthetic := secondPass intervalStart intervalEnd (frameStates selection) in
  let allEvents := filteredEvents selection ++ synthetic in
  sortByAt allEvents.

(** ** Frame interner *)

(** A property of a JavaScript object that the code tests with [!= null]. *)
Inductive Nullable (A : Type) : Type :=
| JsUndefined
| JsNull
| JsValue (a : A).
Arguments JsUndefined {A}.
Arguments JsNull {A}.
Arguments JsValue {A} a.

(** A frame object of the profile.  [Map<any, number>] compares keys by
    reference, so the object carries its identity [ident]; two objects with
    equal fields and different [ident] are different keys. *)
Record Frame : Type := mkFrame {
  ident : positive;
  name  : string;
  file  : Nullable string;
  line  : Nullable Z;
  col   : Nullable Z
}.

(** A frame with a name only. *)
Definition plainFrame (id : positive) (n : string) : Frame :=
  {| ident := id; name := n;
     file := JsUndefined; line := JsUndefined; col := JsUndefined |}.

(** A record of the exported frame table: [name] always, the other keys
    only when they were set. *)
Record SerializedFrame : Type := mkSerializedFrame {
  sname : string;
  sfile : option string;
  sline : option Z;
  scol  : option Z
}.

#[global] Instance SerializedFrame_eq_dec : EqDecision SerializedFrame.
Proof. solve_decision. Defined.

(** [if (x != null) serializedFrame.k = x] *)
Definition copyIfNotNull {A : Type} (x : Nullable A) : option A :=
  match x with
  | JsValue a => Some a
  | JsNull | JsUndefined => None
  end.

Definition serializeFrame (fr : Frame) : SerializedFrame :=
  {| sname := name fr;
     sfile := copyIfNotNull (file fr);
     sline := copyIfNotNull (line fr);
     scol  := copyIfNotNull (col fr) |}.

(** The two locals [getIndexForFrame] closes over. *)
Record Interner : Type := mkInterner {
  frames        : list SerializedFrame;
  indexForFrame : gmap positive nat
}.

Definition emptyInterner : Interner :=
  {| frames := []; indexForFrame := ∅ |}.

Definition getIndexForFrame (fr : Frame) (st : Interner) : nat * Interner :=
  match indexForFrame st !! ident fr with
  | Some index => (index, st)
  | None =>
      let index := length (frames st) in
      (index,
       {| frames := frames st ++ [serializeFrame fr];
          indexForFrame := <[ ident fr := index ]> (indexForFrame st) |})
  end.

(** A run of calls of [getIndexForFrame] inside one export, with the
    indices it returned. *)
Fixpoint getIndexForFrames (frs : list Frame) (st : Interner)
  : list nat * Interner :=
  match frs with
  | [] => ([], st)
  | fr :: frs' =>
      let '(index, st1) := getIndexForFrame fr st in
      let '(indices, st2) := getIndexForFrames frs' st1 in
      (index :: indices, st2)
  end.

(** ** Encoding the profile as events *)

(** [profile.forEachCall(openFrame, closeFrame)] lives in lib/profile; the
    export sees a profile only through the callbacks it invokes, so a
    profile is the sequence of these invocations. *)
Inductive Call : Type :=
| CallOpen  (nodeFrame : Frame) (value : Q)
| CallClose (nodeFrame : Frame) (value : Q).

Record Encoder : Type := mkEncoder {
  interner : Interner;
  events   : list Event
}.

Definition openFrame (nodeFrame : Frame) (value : Q) (st : Encoder) : Encoder :=
  let '(index, itn) := getIndexForFrame nodeFrame (interner st) in
  {| interner := itn;
     events := events st ++
       [ {| type := OpenFrame; frame := index;
            at_ := parseIntOfToString value |} ] |}.

Definition closeFrame (nodeFrame : Frame) (value : Q) (st : Encoder) : Encoder :=
  let '(index, itn) := getIndexForFrame nodeFrame (interner st) in
  {| interner := itn;
     events := events st ++
       [ {| type := CloseFrame; frame := index;
            at_ := parseIntOfToString value |} ] |}.

Definition forEachCall (profile : list Call) : Encoder :=
  fold_left
    (fun st c =>
       match c with
       | CallOpen fr v => openFrame fr v st
       | CallClose fr v => closeFrame fr v st
       end)
    profile {| interner := emptyInterner; events := [] |}.

(** ** Export *)

(** The part of the exported document that depends on the interval:
    [shared.frames] and the single profile's [startValue], [endValue] and
    [events].  ([exporter], [name], [unit], [$schema] are strings built
    from the profile's name and formatter.) *)
Record Document : Type := mkDocument {
  sharedFrames      : list SerializedFrame;
  profileStartValue : Z;
  profileEndValue   : Z;
  profileEvents     : list Event
}.

(** What the click on "Export JSON" ends in: the download of a document,
    or the [alert] of the [catch] branch. *)
Inductive ExportOutcome : Type :=
| Downloaded (doc : Document)
| Alerted (message : string).

(** [handleExportJson] of src/views/interval-selector.tsx.  [Array.sort]
    sorts in place and returns the array, so [events] in the document is
    the sorted array.  [sortedEvents.length > 0 ? f(sortedEvents[i]) : 0]
    is a match on the lookup, which succeeds exactly on a non-empty array
    for the two indices used. *)
Definition handleExportJson (profile : list Call) (startValue endValue : Q)
  : ExportOutcome :=
  let encoded := forEachCall profile in
  let filtered := filterEventsWithContext (events encoded) startValue endValue in
  let sortedEvents := sortByAt filtered in
  let profileStart :=
    match sortedEvents !! 0%nat with
    | Some first => parseIntOfToString (inject_Z (at_ first))
    | None => 0
    end in
  let profileEnd :=
    match sortedEvents !! (length sortedEvents - 1)%nat with
    | Some lastEvent => parseIntOfToString (inject_Z (at_ lastEvent))
    | None => 0
    end in
  Downloaded
    {| sharedFrames := frames (interner encoded);
       profileStartValue := profileStart;
       profileEndValue := profileEnd;
       profileEvents := sortedEvents |}.

(** ** Frame compactor *)

Section Compactor.

(** The frame table is an [any[]]; reading it out of range yields
    [undefined]. *)
Context {A : Type} (undefined : A).

(** One iteration of the loop that fills [oldToNew] and [newFrames]. *)
Definition compressStep (frameTable : list A)
    (acc : gmap nat nat * list A) (ev : Event) : gmap nat nat * list A :=
  let '(oldToNew, newFrames) := acc in
  match oldToNew !! frame ev with
  | Some _ => acc
  | None =>
      let newIndex := length newFrames in
      (<[ frame ev := newIndex ]> oldToNew,
       newFrames ++ [nth (frame ev) frameTable undefined])
  end.

(** [{...ev, frame: oldToNew.get(ev.frame)!}].  Every frame of [events] is
    a key of [oldToNew] when the map is the one the loop built (lemma
    [oldToNew_total]); the default is never taken. *)
Definition remapEvent (oldToNew : gmap nat nat) (ev : Event) : Event :=
  {| type := type ev;
     frame := default 0%nat (oldToNew !! frame ev);
     at_ := at_ ev |}.

(** The loop [for (const ev of events) if (!oldToNew.has(ev.frame)) ...]. *)
Definition compressLoop (frameTable : list A) (evs : list Event)
  : gmap nat nat * list A :=
  fold_left (compressStep frameTable) evs (∅, []).

Definition compressFramesAndRemap (frameTable : list A) (evs : list Event)
  : list A * list Event :=
  (* [used] is filled and never read *)
  let used : gset nat := fold_left (fun u ev => u ∪ {[ frame ev ]}) evs ∅ in
  let '(oldToNew, newFrames) := compressLoop frameTable evs in
  let remapped := map (remapEvent oldToNew) evs in
  (newFrames, remapped).

End Compactor.

(** ** Vocabulary of the properties *)

(** Number of events of type [ty] on frame [f]. *)
Definition countEvents (ty : EventType) (f : nat) (l : list Event) : nat :=
  length (filter (fun e => type e = ty ∧ frame e = f) l).

(** The distinct elements of a list, in order of first occurrence. *)
Fixpoint firstReferences (l : list nat) : list nat :=
  match l with
  | [] => []
  | x :: l' => x :: filter (fun y => y ≠ x) (firstReferences l')
  end.

(** The events of the input that lie in the window, in input order. *)
Definition selectedEvents (events : list Event) (intervalStart intervalEnd : Q)
  : list Event :=
  filter (fun e => inInterval intervalStart intervalEnd e = true) events.

(** Every frame index has, among the events inside the window, as many
    opens as closes, or a single event. *)
Definition balancedInWindow (events : list Event) (intervalStart intervalEnd : Q)
  : Prop :=
  ∀ f,
    let nO := countEvents OpenFrame f
                (selectedEvents events intervalStart intervalEnd) in
    let nC := countEvents CloseFrame f
                (selectedEvents events intervalStart intervalEnd) in
    nO = nC ∨ (nO = 1 ∧ nC = 0)%nat ∨ (nO = 0 ∧ nC = 1)%nat.

(** The keys of the state map, in iteration order. *)
Definition mapKeys (m : FrameStates) : list nat := m.*1.

(** What the first pass does to the state map for an event in the window:
    the entry of the event's frame is created if need be, then marked. *)
Definition mark (e : Event) : FrameState → FrameState :=
  match type e with
  | OpenFrame => markOpen (at_ e)
  | CloseFrame => markClose (at_ e)
  end.

(** [heap] gives the frame object behind each identity.  The table holds,
    at the index recorded for an identity, the record serialized from that
    object; distinct identities have distinct indices; every record of the
    table belongs to one identity. *)
Definition internerInv (heap : positive → Frame) (st : Interner) : Prop :=
  (∀ id i, indexForFrame st !! id = Some i →
           frames st !! i = Some (serializeFrame (heap id))) ∧
  (∀ id1 id2 i, indexForFrame st !! id1 = Some i →
                indexForFrame st !! id2 = Some i → id1 = id2) ∧
  size (indexForFrame st) = length (frames st).

(** The object of a list of frames that carries a given identity. *)
Definition heapOf (frs : list Frame) (id : positive) : Frame :=
  match list_find (λ fr, ident fr = id) frs with
  | Some (_, fr) => fr
  | None => plainFrame id ""
  end.

(** ** Example inputs *)

(** main[0,900] → A[100,800] → B[200,500] → C[300,400], A → D[600,700];
    frame indices main 0, A 1, B 2, C 3, D 4. *)
Definition scenarioA : list Event :=
  [ mkEvent OpenFrame 0 0;   mkEvent OpenFrame 1 100;
    mkEvent OpenFrame 2 200; mkEvent OpenFrame 3 300;
    mkEvent CloseFrame 3 400; mkEvent CloseFrame 2 500;
    mkEvent OpenFrame 4 600; mkEvent CloseFrame 4 700;
    mkEvent CloseFrame 1 800; mkEvent CloseFrame 0 900 ].

(** Scenario A as a profile: the callbacks [forEachCall] invokes on it. *)
Definition scenarioAProfile : list Call :=
  let main := plainFrame 1 "main" in
  let a := plainFrame 2 "A" in
  let b := plainFrame 3 "B" in
  let c := plainFrame 4 "C" in
  let d := plainFrame 5 "D" in
  [ CallOpen main 0; CallOpen a 100; CallOpen b 200; CallOpen c 300;
    CallClose c 400; CallClose b 500; CallOpen d 600; CallClose d 700;
    CallClose a 800; CallClose main 900 ]%Q.

(** The frame table of scenario A as an [any[]]: [None] is [undefined]. *)
Definition scenarioATable : list (option SerializedFrame) :=
  Some <$> frames (interner (forEachCall scenarioAProfile)).

(** A frame that is called twice: f[0,1], f[2,3]. *)
Definition repeatedStream : list Event :=
  [ mkEvent OpenFrame 0 0; mkEvent CloseFrame 0 1;
    mkEvent OpenFrame 0 2; mkEvent CloseFrame 0 3 ].

(** A frame that calls itself: f[0,5] → f[1,2]. *)
Definition recursiveStream : list Event :=
  [ mkEvent OpenFrame 0 0; mkEvent OpenFrame 0 1;
    mkEvent CloseFrame 0 2; mkEvent CloseFrame 0 5 ].

(* ===================================================================== *)
(** * Part I, continued: the rest of the export code                      *)
(* ===================================================================== *)

(** ** Reading a call *)

Definition callFrame (c : Call) : Frame :=
  match c with CallOpen fr _ | CallClose fr _ => fr end.

Definition callValue (c : Call) : Q :=
  match c with CallOpen _ v | CallClose _ v => v end.

Definition callType (c : Call) : EventType :=
  match c with CallOpen _ _ => OpenFrame | CallClose _ _ => CloseFrame end.

(** The event a callback pushes for a call, given the index of its frame. *)
Definition eventOfCall (c : Call) (index : nat) : Event :=
  {| type := callType c; frame := index;
     at_ := parseIntOfToString (callValue c) |}.

(** One invocation of a callback by [forEachCall]. *)
Definition invoke (st : Encoder) (c : Call) : Encoder :=
  match c with
  | CallOpen fr v => openFrame fr v st
  | CallClose fr v => closeFrame fr v st
  end.

(** ** The newer dialog (kept in src/config/api-config.ts) *)

Module NewDialog.

(** The exported document when the frame table is compacted: the table is
    what [compressFramesAndRemap] returns, an [any[]] whose entries are
    frame records or [undefined] ([None]). *)
Record Document : Type := mkDocument {
  sharedFrames      : list (option SerializedFrame);
  profileStartValue : Z;
  profileEndValue   : Z;
  profileEvents     : list Event
}.

Inductive ExportOutcome : Type :=
| Downloaded (doc : Document)
| Alerted (message : string).

(** [handleExportJson] of the newer dialog: encode, filter, compact, then
    take the first and last timestamps of the sorted events. *)
Definition handleExportJson (profile : list Call) (startValue endValue : Q)
  : ExportOutcome :=
  let encoded := forEachCall profile in
  let filteredEvents :=
    filterEventsWithContext (events encoded) startValue endValue in
  let compressed :=
    compressFramesAndRemap None (Some <$> frames (interner encoded))
      filteredEvents in
  let framesSlim := compressed.1 in
  let filteredEvents := compressed.2 in
  let sortedEvents := sortByAt filteredEvents in
  let profileStart :=
    match sortedEvents !! 0%nat with
    | Some first => parseIntOfToString (inject_Z (at_ first))
    | None => 0
    end in
  let profileEnd :=
    match sortedEvents !! (length sortedEvents - 1)%nat with
    | Some lastEvent => parseIntOfToString (inject_Z (at_ lastEvent))
    | None => 0
    end in
  Downloaded
    {| sharedFrames := framesSlim;
       profileStartValue := profileStart;
       profileEndValue := profileEnd;
       profileEvents := sortedEvents |}.

(** *** Export as text *)

(** [stack.indexOf(x)]: the first position of [x]; [None] is -1. *)
Fixpoint indexOf (x : nat) (l : list nat) : option nat :=
  match l with
  | [] => None
  | y :: l' => if decide (y = x) then Some 0%nat else S <$> indexOf x l'
  end.

(** A line of the text file.  [`${i}\t${name}`] and
    [`[ ${stack.join(' ')} ]\t${duration}`] are kept as the data they
    print. *)
Inductive Line : Type :=
| CommentLine (text : string)
| SymbolLine (index : nat) (symbol : string)
| StackLine (stack : list nat) (duration : Q).

(** [d > 0] on numbers. *)
Definition positive (d : Q) : bool := negb (Qle_bool d 0).

(** The locals of the loop over the events. *)
Record Replay : Type := mkReplay {
  stack    : list nat;
  lines    : list Line;
  prevTime : Q
}.

(** [stack.unshift(ev.frame)] on an open; on a close
    [const idx = stack.indexOf(ev.frame); if (idx >= 0) stack.splice(idx, 1)]. *)
Definition applyEvent (stack : list nat) (ev : Event) : list nat :=
  match type ev with
  | OpenFrame => frame ev :: stack
  | CloseFrame =>
      match indexOf (frame ev) stack with
      | Some idx => delete idx stack
      | None => stack
      end
  end.

(** One iteration of [for (const ev of filtered)]. *)
Definition replayEvent (st : Replay) (ev : Event) : Replay :=
  let duration := (inject_Z (at_ ev) - prevTime st)%Q in
  {| stack := applyEvent (stack st) ev;
     lines :=
       if positive duration && bool_decide (0 < length (stack st))%nat
       then lines st ++ [StackLine (stack st) duration]
       else lines st;
     prevTime := inject_Z (at_ ev) |}.

(** [const tailDuration = endValue - prevTime; if (...) lines.push(...)].
    The difference is the one the code computes when [endValue] is an
    integer below 2^53; for a fractional [endValue] the code has the
    binary64 difference, which is positive exactly when this one is. *)
Definition flushTail (endValue : Q) (st : Replay) : list Line :=
  let tailDuration := (endValue - prevTime st)%Q in
  if positive tailDuration && bool_decide (0 < length (stack st))%nat
  then lines st ++ [StackLine (stack st) tailDuration]
  else lines st.

(** [for (i...) lines.push(`${i}\t${framesSlim[i].name}`)]: reading [name]
    off an [undefined] entry throws. *)
Fixpoint symbolLines (i : nat) (framesSlim : list (option SerializedFrame))
  : option (list Line) :=
  match framesSlim with
  | [] => Some []
  | None :: _ => None
  | Some fr :: rest =>
      match symbolLines (S i) rest with
      | Some ls => Some (SymbolLine i (sname fr) :: ls)
      | None => None
      end
  end.

Definition tab : string := String (Ascii.ascii_of_nat 9) EmptyString.

(** What the click on "Export Text" ends in: the lines of the downloaded
    file, or the [alert] of the [catch] branch. *)
Inductive TextOutcome : Type :=
| TextDownloaded (fileLines : list Line)
| TextAlerted.

(** The lines before the stack lines: the symbol table between comments. *)
Definition header (symbols : list Line) : list Line :=
  [CommentLine "# symbols"] ++ symbols ++
  [CommentLine
     "# frames are referenced by index from left (top) to right (bottom)";
   CommentLine
     ("# stack [ top ... bottom ]" +:+ tab +:+
      "<duration> (same units as profile)")].

Definition handleExportText (profile : list Call) (startValue endValue : Q)
  : TextOutcome :=
  let encoded := forEachCall profile in
  let filtered :=
    sortByAt (filterEventsWithContext (events encoded) startValue endValue) in
  let compressed :=
    compressFramesAndRemap None (Some <$> frames (interner encoded)) filtered in
  let framesSlim := compressed.1 in
  let filtered := compressed.2 in
  match symbolLines 0 framesSlim with
  | None => TextAlerted
  | Some symbols =>
      let start :=
        match filtered !! 0%nat with
        | Some first => inject_Z (at_ first)
        | None => startValue
        end in
      let final :=
        fold_left replayEvent filtered
          {| stack := []; lines := header symbols; prevTime := start |} in
      TextDownloaded (flushTail endValue final)
  end.

End NewDialog.

(** ** The condensed view of the older dialog *)

(** [callStack.lastIndexOf(x)]: the last position of [x]; [None] is -1. *)
Fixpoint lastIndexOf (x : nat) (l : list nat) : option nat :=
  match l with
  | [] => None
  | y :: l' =>
      match lastIndexOf x l' with
      | Some i => Some (S i)
      | None => if decide (y = x) then Some 0%nat else None
      end
  end.

(** [{time, stack}] *)
Record StackEntry : Type := mkStackEntry {
  time       : Z;
  entryStack : list nat
}.

(** [callStack.push(event.frame)] on an open; on a close
    [const frameIndex = callStack.lastIndexOf(event.frame);
     if (frameIndex !== -1) callStack.splice(frameIndex, 1)]. *)
Definition callStackAfter (callStack : list nat) (event : Event) : list nat :=
  match type event with
  | OpenFrame => callStack ++ [frame event]
  | CloseFrame =>
      match lastIndexOf (frame event) callStack with
      | Some frameIndex => delete frameIndex callStack
      | None => callStack
      end
  end.

(** One iteration of [for (const event of sortedEvents)]: update the stack,
    then record a copy of it. *)
Definition recordEvent (st : list nat * list StackEntry) (event : Event)
  : list nat * list StackEntry :=
  let '(callStack, stackHistory) := st in
  let callStack' := callStackAfter callStack event in
  (callStack',
   stackHistory ++ [ {| time := at_ event; entryStack := callStack' |} ]).

(** The stack history [generateCondensedView] prints, from the events of
    the exported profile. *)
Definition stackHistoryOf (profileEvents : list Event)
  : list nat * list StackEntry :=
  let sortedEvents := sortByAt profileEvents in
  fold_left recordEvent sortedEvents ([], []).

(** A well-nested stream: calls that open, run their callees, and close. *)
Inductive Nested : list Event → Prop :=
| Nested_nil : Nested []
| Nested_call (f : nat) (a b : Z) (inner rest : list Event) :
    Nested inner → Nested rest →
    Nested (mkEvent OpenFrame f a :: inner ++ mkEvent CloseFrame f b :: rest).

(** The sum of the durations of the stack lines. *)
Fixpoint totalDuration (ls : list NewDialog.Line) : Q :=
  match ls with
  | [] => 0
  | NewDialog.StackLine _ d :: ls' => d + totalDuration ls'
  | _ :: ls' => totalDuration ls'
  end.

(** ** The fallback encoder of the application (src/views/application.tsx) *)

Module Application.

(** [const maxEvents = 100000 // Safety limit to prevent infinite loops] *)
Definition maxEvents : Z := 100000.

(** The encoder with the counter [eventCount] the callbacks share. *)
Record LimitedEncoder : Type := mkLimitedEncoder {
  encoder    : Encoder;
  eventCount : Z
}.

(** [if (eventCount >= maxEvents) return; events.push(...); eventCount++];
    the push is the one of the dialog's callback ([invoke]). *)
Definition openFrame (limit : Z) (nodeFrame : Frame) (value : Q)
    (st : LimitedEncoder) : LimitedEncoder :=
  if (limit <=? eventCount st)%Z then st
  else {| encoder := invoke (encoder st) (CallOpen nodeFrame value);
          eventCount := eventCount st + 1 |}.

Definition closeFrame (limit : Z) (nodeFrame : Frame) (value : Q)
    (st : LimitedEncoder) : LimitedEncoder :=
  if (limit <=? eventCount st)%Z then st
  else {| encoder := invoke (encoder st) (CallClose nodeFrame value);
          eventCount := eventCount st + 1 |}.

(** [activeProfile.forEachCall(openFrame, closeFrame)] with a limit. *)
Definition forEachCallWithLimit (limit : Z) (profile : list Call)
  : LimitedEncoder :=
  fold_left
    (fun st c =>
       match c with
       | CallOpen fr v => openFrame limit fr v st
       | CallClose fr v => closeFrame limit fr v st
       end)
    profile
    {| encoder := {| interner := emptyInterner; events := [] |};
       eventCount := 0 |}.

(** The events and the frame table the fallback path of
    [handleIntervalConfirm] goes on with. *)
Definition forEachCall (profile : list Call) : Encoder :=
  encoder (forEachCallWithLimit maxEvents profile).

End Application.

(** ** The OAuth configuration and the token cache (src/config/api-config.ts) *)

(** A number or string of a JSON response that the code tests with [||]:
    [x || d] is [d] when [x] is undefined, null, 0 or the empty string. *)
Definition orDefaultZ (x : Nullable Z) (d : Z) : Z :=
  match x with
  | JsValue v => if (v =? 0)%Z then d else v
  | JsNull | JsUndefined => d
  end.

Definition orDefaultString (x : Nullable string) (d : string) : string :=
  match x with
  | JsValue v => if decide (v = "") then d else v
  | JsNull | JsUndefined => d
  end.

(** [responseSchema] of an [OAuthConfig]. *)
Record ResponseSchema : Type := mkResponseSchema {
  schema_access_token : string;
  schema_token_type   : option string;
  schema_expires_in   : option Z;
  schema_scope        : option string
}.

Record OAuthConfig : Type := mkOAuthConfig {
  url               : string;
  clientIdField     : string;
  clientSecretField : string;
  grantType         : string;
  contentType       : string;
  responseSchema    : ResponseSchema
}.

Definition DEFAULT_OAUTH_CONFIG : OAuthConfig :=
  {| url := "https://api.example.com/oauth/token";
     clientIdField := "client_id";
     clientSecretField := "client_secret";
     grantType := "client_credentials";
     contentType := "application/x-www-form-urlencoded";
     responseSchema :=
       {| schema_access_token := "string";
          schema_token_type := Some "Bearer";
          schema_expires_in := Some 3600;
          schema_scope := Some "read write" |} |}.

Module TokenCache.

(** ToInt32: the value wrapped into [-2^31, 2^31). *)
Definition toInt32 (z : Z) : Z := (z + 2 ^ 31) mod 2 ^ 32 - 2 ^ 31.

(** [hash = ((hash << 5) - hash) + char; hash = hash & hash]: the shift
    yields a 32-bit integer, the subtraction and the addition are exact,
    and [&] wraps the result to 32 bits again. *)
Definition hashStep (hash char : Z) : Z :=
  toInt32 (toInt32 (Z.shiftl (toInt32 hash) 5) - hash + char).

(** [key.charCodeAt(i)], for strings of code units below 256. *)
Definition charCode (c : Ascii.ascii) : Z := Z.of_nat (Ascii.nat_of_ascii c).

(** The loop [for (let i = 0; i < key.length; i++)]. *)
Fixpoint hashFrom (hash : Z) (key : string) : Z :=
  match key with
  | EmptyString => hash
  | String c rest => hashFrom (hashStep hash (charCode c)) rest
  end.

(** A digit of [toString(36)]. *)
Definition digit36 (d : Z) : Ascii.ascii :=
  if (d <? 10)%Z then Ascii.ascii_of_nat (Z.to_nat (48 + d))
  else Ascii.ascii_of_nat (Z.to_nat (97 + (d - 10))).

(** [n.toString(36)] for a natural number of at most [fuel] digits; the
    callers pass numbers up to 2^31, which have at most 7. *)
Fixpoint digits36 (fuel : nat) (n : Z) (acc : string) : string :=
  match fuel with
  | O => acc
  | S fuel' =>
      let acc' := String (digit36 (n mod 36)) acc in
      if (n / 36 =? 0)%Z then acc' else digits36 fuel' (n / 36) acc'
  end.

Definition toString36 (n : Z) : string := digits36 7 n "".

Definition CACHE_KEY_PREFIX : string := "oauth_token_".

Definition getCacheKey (config : OAuthConfig) (clientId : string) : string :=
  let key := url config +:+ ":" +:+ clientId in
  let hash := hashFrom 0 key in
  CACHE_KEY_PREFIX +:+ toString36 (Z.abs hash).

(** The token response of the OAuth server, as far as the cache reads it. *)
Record TokenResponse : Type := mkTokenResponse {
  access_token : string;
  token_type   : Nullable string;
  expires_in   : Nullable Z;
  scope        : Nullable string
}.

Record CachedToken : Type := mkCachedToken {
  cached_access_token : string;
  cached_token_type   : string;
  expires_at          : Z;
  cached_scope        : Nullable string
}.

(** [private cache: Map<string, CachedToken>] is a
    [gmap string CachedToken]. *)

(** [setToken]; [now] is [Date.now()]. *)
Definition setToken (cache : gmap string CachedToken) (config : OAuthConfig) (clientId : string)
    (tokenResponse : TokenResponse) (now : Z)
  : gmap string CachedToken :=
  let expiresIn := orDefaultZ (expires_in tokenResponse) 3600 in
  let expiresAt := now + expiresIn * 1000 in
  let cachedToken :=
    {| cached_access_token := access_token tokenResponse;
       cached_token_type := orDefaultString (token_type tokenResponse) "Bearer";
       expires_at := expiresAt;
       cached_scope := scope tokenResponse |} in
  <[ getCacheKey config clientId := cachedToken ]> cache.

(** [getToken]: the token or null, and the cache afterwards. *)
Definition getToken (cache : gmap string CachedToken) (config : OAuthConfig) (clientId : string)
    (now : Z) 
  : option string * gmap string CachedToken :=
  let cacheKey := getCacheKey config clientId in
  match cache !! cacheKey with
  | None => (None, cache)
  | Some cachedToken =>
      let bufferTime := 5 * 60 * 1000 in
      if (expires_at cachedToken <=? now + bufferTime)%Z
      then (None, delete cacheKey cache)
      else (Some (cached_access_token cachedToken), cache)
  end.

Definition clearToken (cache : gmap string CachedToken) (config : OAuthConfig) (clientId : string)
  : gmap string CachedToken :=
  delete (getCacheKey config clientId) cache.

Definition clearAll (cache : gmap string CachedToken)
  : gmap string CachedToken := ∅.

(** [hasValidToken]: [getToken(...) !== null], with the effect of
    [getToken] on the cache. *)
Definition hasValidToken (cache : gmap string CachedToken) (config : OAuthConfig)
    (clientId : string) (now : Z)
  : bool * gmap string CachedToken :=
  let '(token, cache') := getToken cache config clientId now in
  (bool_decide (token ≠ None), cache').

(** The hash without wrap-around: the polynomial in 31 of the code units. *)
Fixpoint polynomial31 (hash : Z) (key : string) : Z :=
  match key with
  | EmptyString => hash
  | String c rest => polynomial31 (31 * hash + charCode c) rest
  end.

End TokenCache.

(** ** Validation of responses (src/config/api-config.ts) *)

(** A parsed JSON value ([response: any]). *)
Inductive Json : Type :=
| JsUndef
| JsNul
| JsBool (b : bool)
| JsNum (z : Z)
| JsStr (s : string)
| JsArr (items : list Json)
| JsObj (props : gmap string Json).

(** [typeof v] *)
Definition typeof (v : Json) : string :=
  match v with
  | JsUndef => "undefined"
  | JsNul | JsArr _ | JsObj _ => "object"
  | JsBool _ => "boolean"
  | JsNum _ => "number"
  | JsStr _ => "string"
  end.

(** [v !== null] *)
Definition notNull (v : Json) : bool :=
  match v with JsNul => false | _ => true end.

Definition isDigit (c : Ascii.ascii) : bool :=
  (48 <=? Ascii.nat_of_ascii c)%nat && (Ascii.nat_of_ascii c <=? 57)%nat.

Fixpoint parseDigits (s : string) (acc : nat) : option nat :=
  match s with
  | EmptyString => Some acc
  | String c rest =>
      if isDigit c
      then parseDigits rest (acc * 10 + (Ascii.nat_of_ascii c - 48))%nat
      else None
  end.

(** The array index a property key denotes: a decimal numeral without a
    leading zero. *)
Definition arrayIndex (key : string) : option nat :=
  match key with
  | EmptyString => None
  | String c rest =>
      if decide (key = "0") then Some 0%nat
      else if (Ascii.nat_of_ascii c =? 48)%nat then None
      else parseDigits key 0
  end.

(** [v[key]] on an object or an array, through its own properties.  The
    inherited properties of [Object.prototype] and [Array.prototype] are
    functions and objects; the callers only ask whether the result is a
    string or an array, which the inherited ones never are. *)
Definition getProperty (v : Json) (key : string) : Json :=
  match v with
  | JsObj props => default JsUndef (props !! key)
  | JsArr items =>
      if decide (key = "length") then JsNum (Z.of_nat (length items))
      else match arrayIndex key with
           | Some i => default JsUndef (items !! i)
           | None => JsUndef
           end
  | _ => JsUndef
  end.

(** [typeof response === 'object' && response !== null &&
     typeof response[schema.access_token] === 'string'] *)
Definition validateOAuthResponse (response : Json) (config : OAuthConfig)
  : bool :=
  let schema := responseSchema config in
  bool_decide (typeof response = "object") &&
  notNull response &&
  bool_decide
    (typeof (getProperty response (schema_access_token schema)) = "string").

(** The result of an expression that can throw a [TypeError]. *)
Inductive Result (A : Type) : Type :=
| Returned (a : A)
| ThrownTypeError.
Arguments Returned {A} a.
Arguments ThrownTypeError {A}.

(** [validateLLMResponse], which does not read its [config]; [&&]
    evaluates its right operand only when the left one is true, and
    [response.content[0].text] throws when [response.content[0]] is null or
    undefined. *)
Definition validateLLMResponse (response : Json) : Result bool :=
  if bool_decide (typeof response = "object") && notNull response
  then
    match getProperty response "content" with
    | JsArr items =>
        if bool_decide (0 < length items)%nat
        then
          match items !! 0%nat with
          | Some JsUndef | Some JsNul | None => ThrownTypeError
          | Some first =>
              Returned
                (bool_decide (typeof (getProperty first "text") = "string") &&
                 bool_decide
                   (typeof (getProperty response "stop_reason") = "string"))
          end
        else Returned false
    | _ => Returned false
    end
  else Returned false.

(** ** The window handed to the dialog (src/views/application.tsx) *)

(** [Vec2] and [Rect] of lib/math, as far as [sendToAPI] reads them. *)
Module Math.

Record Vec2 : Type := mkVec2 {
  x : Q;
  y : Q
}.

Record Rect : Type := mkRect {
  origin : Vec2;
  size   : Vec2
}.

End Math.

Section Viewport.

(** [x + y] on numbers: the code adds in binary64, so the result is the
    exact sum only when that is a number of the format (100 + -1e-15
    is 100).  [add] is the addition of the code. *)
Variable add : Q → Q → Q.

(** [sendToAPI] with an active profile: the pair [selectedStartValue],
    [selectedEndValue] it stores.  The argument is
    [viewState.configSpaceViewportRect], absent when there is no view state
    or no viewport. *)
Definition sendToAPI (totalWeight : Q)
    (configSpaceViewportRect : option Math.Rect) : Q * Q :=
  match configSpaceViewportRect with
  | Some rect =>
      (Qmax 0 (Math.x (Math.origin rect)),
       Qmin totalWeight
         (add (Math.x (Math.origin rect)) (Math.x (Math.size rect))))
  | None => (0%Q, totalWeight)
  end.

End Viewport.

(* ===================================================================== *)
(** * Part II: properties                                                 *)
(* ===================================================================== *)

(** ** Numbers *)

Lemma printsPositional_spec (x : Q) :
  printsPositional x = true ↔
  (x == 0 ∨ ((1 # 1000000) <= Qabs x ∧ Qabs x < inject_Z (10 ^ 21)))%Q.
Proof.
  unfold printsPositional.
  rewrite orb_true_iff, andb_true_iff, negb_true_iff, Qeq_bool_iff, Qle_bool_iff.
  assert (Hneg : Qle_bool (inject_Z (10 ^ 21)) (Qabs x) = false ↔
                 (Qabs x < inject_Z (10 ^ 21))%Q).
  { split.
    - intros H. apply Qnot_le_lt. intros Hle.
      apply Qle_bool_iff in Hle. congruence.
    - intros H. apply not_true_is_false. intros Hle.
      apply Qle_bool_iff in Hle. by apply Qlt_not_le in H. }
  rewrite Hneg. tauto.
Qed.

(** What [parseInt(x.toString())] is for 200.5, -200.5, 0.000001, 5e-7,
    -1.5e-7, 999999999999999999999, 1e21 and -3.2e22. *)
Lemma parseIntOfToString_samples :
  parseIntOfToString <$>
    [ 401 # 2; - (401 # 2); 1 # 1000000; 5 # 10000000; - (15 # 100000000);
      inject_Z (10 ^ 21 - 1); inject_Z (10 ^ 21);
      inject_Z (- 32 * 10 ^ 21) ]%Q =
  [ 200; -200; 0; 5; -1; 10 ^ 21 - 1; 1; -3 ].
Proof. by vm_compute. Qed.

Lemma printsPositional_integer (z : Z) :
  - 10 ^ 21 < z < 10 ^ 21 → printsPositional (inject_Z z) = true.
Proof.
  intros Hz. apply printsPositional_spec.
  destruct (decide (z = 0)) as [->|Hne]; [by left|right].
  unfold Qle, Qlt, Qabs, inject_Z; simpl. lia.
Qed.

Lemma integerPart_integer (z : Z) : integerPart (inject_Z z) = z.
Proof. unfold integerPart, inject_Z; simpl. apply Z.quot_1_r. Qed.

Lemma integerPart_mono (s t : Q) :
  (s <= t)%Q → integerPart s ≤ integerPart t.
Proof.
  unfold Qle, integerPart. destruct s as [ns ds], t as [nt dt]; simpl.
  intros Hle.
  rewrite <- (Z.quot_mul_cancel_r ns (Z.pos ds) (Z.pos dt)) by done.
  rewrite <- (Z.quot_mul_cancel_r nt (Z.pos dt) (Z.pos ds)) by done.
  rewrite (Z.mul_comm (Z.pos dt) (Z.pos ds)).
  apply Z.quot_le_mono; [lia | exact Hle].
Qed.

Lemma integerPart_le (t : Q) :
  (0 <= t)%Q → (inject_Z (integerPart t) <= t)%Q.
Proof.
  unfold Qle, integerPart, inject_Z. destruct t as [n d]; simpl.
  intros Hn. rewrite Z.mul_1_r in *.
  rewrite Z.mul_comm. apply Z.mul_quot_le; lia.
Qed.

Lemma parseIntOfToString_positional (x : Q) :
  printsPositional x = true → parseIntOfToString x = integerPart x.
Proof. intros H. unfold parseIntOfToString. by rewrite H. Qed.

(** An integer below 1e21 in absolute value is printed digit by digit and
    read back as it is. *)
Lemma parseIntOfToString_integer (z : Z) :
  - 10 ^ 21 < z < 10 ^ 21 → parseIntOfToString (inject_Z z) = z.
Proof.
  intros Hz. rewrite parseIntOfToString_positional
    by (by apply printsPositional_integer).
  apply integerPart_integer.
Qed.

Lemma pow2_le_pow10 (k : Z) : 0 ≤ k → 2 ^ k ≤ 10 ^ k.
Proof. intros Hk. apply Z.pow_le_mono_l. lia. Qed.

Lemma leadingDigitBelowOne_range (fuel : nat) (a b : Z) :
  0 < a → a < 10 * b → b ≤ 10 ^ Z.of_nat fuel * a →
  1 ≤ leadingDigitBelowOne fuel a b ≤ 9.
Proof.
  revert a. induction fuel as [|fuel IH]; intros a Ha Hab Hfuel.
  - simpl in *. split.
    + apply Z.div_le_lower_bound; lia.
    + apply Z.lt_succ_r, Z.div_lt_upper_bound; lia.
  - cbn [leadingDigitBelowOne]. destruct (Z.leb_spec b a) as [Hle|Hlt].
    + split.
      * apply Z.div_le_lower_bound; lia.
      * apply Z.lt_succ_r, Z.div_lt_upper_bound; lia.
    + apply IH; [lia|lia|].
      rewrite Nat2Z.inj_succ, Z.pow_succ_r in Hfuel by lia. lia.
Qed.

Lemma leadingDigitAboveOne_range (fuel : nat) (a b : Z) :
  0 < b → b ≤ a → a < 10 ^ Z.of_nat (S fuel) * b →
  1 ≤ leadingDigitAboveOne fuel a b ≤ 9.
Proof.
  revert b. induction fuel as [|fuel IH]; intros b Hb Hba Hfuel.
  - simpl in *. split.
    + apply Z.div_le_lower_bound; lia.
    + apply Z.lt_succ_r, Z.div_lt_upper_bound; lia.
  - cbn [leadingDigitAboveOne]. destruct (Z.ltb_spec a (10 * b)) as [Hlt|Hle].
    + split.
      * apply Z.div_le_lower_bound; lia.
      * apply Z.lt_succ_r, Z.div_lt_upper_bound; lia.
    + apply IH; [lia|lia|].
      rewrite (Nat2Z.inj_succ (S fuel)), Z.pow_succ_r in Hfuel by lia. lia.
Qed.

(** The fuel of [leadingDigit] is enough: the result is a digit from 1
    to 9. *)
Lemma leadingDigit_range (x : Q) : Qnum x ≠ 0 → 1 ≤ leadingDigit x ≤ 9.
Proof.
  intros Hx. unfold leadingDigit. cbv zeta.
  set (a := Z.abs (Qnum x)). set (b := Z.pos (Qden x)).
  assert (Ha : 0 < a) by (unfold a; lia).
  assert (Hb : 0 < b) by (unfold b; lia).
  assert (Hlog : ∀ n, 0 < n → n < 10 ^ Z.of_nat (Z.to_nat (Z.log2 n) + 1)).
  { intros n Hn. pose proof (Z.log2_nonneg n) as Hl.
    destruct (Z.log2_spec n Hn) as [_ Hlt].
    replace (Z.of_nat (Z.to_nat (Z.log2 n) + 1)) with (Z.succ (Z.log2 n)) by lia.
    pose proof (pow2_le_pow10 (Z.succ (Z.log2 n))). lia. }
  destruct (Z.ltb_spec a b) as [Hlt|Hle].
  - apply leadingDigitBelowOne_range; [lia|lia|].
    specialize (Hlog b Hb). nia.
  - apply leadingDigitAboveOne_range; [lia|lia|].
    specialize (Hlog a Ha).
    rewrite Nat2Z.inj_succ, Z.pow_succ_r by lia. nia.
Qed.

Lemma integerPart_bound (x : Q) :
  (Qabs x < inject_Z (10 ^ 21))%Q → - 10 ^ 21 < integerPart x < 10 ^ 21.
Proof.
  unfold Qlt, Qabs, inject_Z, integerPart. destruct x as [n d]; simpl.
  rewrite Z.mul_1_r. intros Hlt.
  assert (H : Z.abs (n ÷ Z.pos d) < 10 ^ 21).
  { rewrite <- Z.quot_abs by lia.
    apply Z.quot_lt_upper_bound; lia. }
  lia.
Qed.

(** Whatever the number, [parseInt] of its string is an integer below 1e21
    in absolute value: the events of the encoder are printed digit by
    digit. *)
Lemma parseIntOfToString_bound (x : Q) :
  - 10 ^ 21 < parseIntOfToString x < 10 ^ 21.
Proof.
  unfold parseIntOfToString.
  destruct (printsPositional x) eqn:Hp.
  - apply printsPositional_spec in Hp as [H0|[_ Hlt]].
    + unfold Qeq in H0. simpl in H0. rewrite Z.mul_1_r in H0.
      unfold integerPart. rewrite H0. by rewrite Z.quot_0_l.
    + by apply integerPart_bound.
  - destruct (decide (Qnum x = 0)) as [H0|Hne].
    + rewrite H0. simpl. lia.
    + pose proof (leadingDigit_range x Hne).
      destruct (Z.sgn_spec (Qnum x)) as [[_ ->]|[[_ ->]|[_ ->]]]; lia.
Qed.



Lemma parseIntOfToString_mono (s t : Q) :
  printsPositional s = true → printsPositional t = true →
  (s <= t)%Q → parseIntOfToString s ≤ parseIntOfToString t.
Proof.
  intros Hs Ht Hle. rewrite !parseIntOfToString_positional by done.
  by apply integerPart_mono.
Qed.

Lemma inInterval_spec (s t : Q) (e : Event) :
  inInterval s t e = true ↔ (s <= inject_Z (at_ e))%Q ∧ (inject_Z (at_ e) <= t)%Q.
Proof.
  unfold inInterval. rewrite andb_true_iff, !Qle_bool_iff. tauto.
Qed.

Lemma inInterval_integer (s t : Z) (e : Event) :
  inInterval (inject_Z s) (inject_Z t) e = true ↔ s ≤ at_ e ≤ t.
Proof. rewrite inInterval_spec, <- !Zle_Qle. tauto. Qed.

Lemma inInterval_empty (s t : Q) (e : Event) :
  (t < s)%Q → inInterval s t e = false.
Proof.
  intros Hlt. apply not_true_is_false. rewrite inInterval_spec.
  intros [H1 H2]. apply (Qlt_irrefl s).
  eapply Qle_lt_trans; [ eapply Qle_trans; eassumption | exact Hlt ].
Qed.

(** ** Sorting *)

Lemma insertByAt_perm (x : Event) (l : list Event) : insertByAt x l ≡ₚ x :: l.
Proof.
  induction l as [|y l IH]; simpl; [done|].
  destruct (at_ x <=? at_ y); [done|].
  rewrite IH. apply Permutation_swap.
Qed.

Lemma sortByAt_perm (l : list Event) : sortByAt l ≡ₚ l.
Proof.
  induction l as [|x l IH]; simpl; [done|].
  by rewrite insertByAt_perm, IH.
Qed.

Lemma sortByAt_elem_of (l : list Event) (e : Event) : e ∈ sortByAt l ↔ e ∈ l.
Proof. by rewrite sortByAt_perm. Qed.

Lemma sortByAt_length (l : list Event) : length (sortByAt l) = length l.
Proof. by rewrite sortByAt_perm. Qed.

Definition leAt (a b : Event) : Prop := at_ a ≤ at_ b.

Lemma insertByAt_sorted (x : Event) (l : list Event) :
  StronglySorted leAt l → StronglySorted leAt (insertByAt x l).
Proof.
  induction 1 as [|y l Hs IH Hall]; simpl.
  - repeat constructor.
  - destruct (Z.leb_spec (at_ x) (at_ y)) as [Hle|Hgt].
    + constructor; [by constructor|].
      constructor; [exact Hle|].
      eapply Forall_impl; [exact Hall|]. unfold leAt; simpl; intros; lia.
    + constructor; [exact IH|].
      rewrite insertByAt_perm. constructor; [unfold leAt; lia | exact Hall].
Qed.

Lemma sortByAt_sorted (l : list Event) : StronglySorted leAt (sortByAt l).
Proof.
  induction l as [|x l IH]; simpl; [constructor|].
  by apply insertByAt_sorted.
Qed.

(** Sorting a sorted array leaves it as it is. *)
Lemma insertByAt_head (x : Event) (l : list Event) :
  Forall (leAt x) l → insertByAt x l = x :: l.
Proof.
  destruct l as [|y l]; simpl; [done|].
  intros Hall. apply Forall_cons in Hall as [Hxy _].
  unfold leAt in Hxy. by destruct (Z.leb_spec (at_ x) (at_ y)); [|lia].
Qed.

Lemma sortByAt_idem (l : list Event) : StronglySorted leAt l → sortByAt l = l.
Proof.
  induction 1 as [|x l Hs IH Hall]; simpl; [done|].
  rewrite IH. by apply insertByAt_head.
Qed.

Lemma sorted_lookup_le (l : list Event) (i j : nat) (a b : Event) :
  StronglySorted leAt l → l !! i = Some a → l !! j = Some b → (i ≤ j)%nat →
  at_ a ≤ at_ b.
Proof.
  intros Hs. revert i j. induction Hs as [|x l Hs IH Hall]; intros i j.
  - by rewrite lookup_nil.
  - destruct i as [|i], j as [|j]; simpl; try lia.
    + intros [= <-] [= <-] _. lia.
    + intros [= <-] Hb _. rewrite Forall_forall in Hall.
      apply Hall. by eapply list_elem_of_lookup_2.
    + intros Ha Hb Hij. apply (IH i j); [done|done|lia].
Qed.

(** ** The state map *)

Lemma mapHas_true (k : nat) (m : FrameStates) :
  mapHas k m = true ↔ is_Some (mapGet k m).
Proof.
  induction m as [|[k' v] m IH]; simpl.
  - split; [done|]. by intros [? ?].
  - destruct (decide (k' = k)); [|exact IH]. split; eauto.
Qed.

Lemma mapKeys_mapGet (k : nat) (m : FrameStates) :
  k ∈ mapKeys m ↔ is_Some (mapGet k m).
Proof.
  unfold mapKeys. induction m as [|[k' v] m IH]; simpl.
  - rewrite elem_of_nil. split; [done|]. by intros [? ?].
  - rewrite elem_of_cons, IH. destruct (decide (k' = k)) as [->|Hne].
    + split; eauto.
    + split; [intros [?|?]; [congruence|done] | by right].
Qed.

Lemma mapGet_None (k : nat) (m : FrameStates) :
  mapGet k m = None ↔ k ∉ mapKeys m.
Proof. rewrite mapKeys_mapGet, eq_None_not_Some. done. Qed.

Lemma mapGet_mapMutate (k k' : nat) (f : FrameState → FrameState) (m : FrameStates) :
  mapGet k (mapMutate k' f m) =
  if decide (k = k') then f <$> mapGet k m else mapGet k m.
Proof.
  induction m as [|[k0 v] m IH]; simpl.
  - by destruct (decide (k = k')).
  - destruct (decide (k0 = k')) as [->|Hne]; simpl.
    + destruct (decide (k' = k)) as [->|Hne'].
      * by rewrite decide_True.
      * by rewrite decide_False by congruence.
    + destruct (decide (k0 = k)) as [->|Hne'].
      * by rewrite decide_False by congruence.
      * exact IH.
Qed.

Lemma mapGet_mapSet (k k' : nat) (v : FrameState) (m : FrameStates) :
  mapGet k (mapSet k' v m) = if decide (k = k') then Some v else mapGet k m.
Proof.
  induction m as [|[k0 v0] m IH]; simpl.
  - destruct (decide (k' = k)) as [->|Hne].
    + by rewrite decide_True.
    + by rewrite decide_False by congruence.
  - destruct (decide (k0 = k')) as [->|Hne]; simpl.
    + destruct (decide (k' = k)) as [->|Hne'].
      * by rewrite decide_True.
      * by rewrite decide_False by congruence.
    + destruct (decide (k0 = k)) as [->|Hne'].
      * by rewrite decide_False by congruence.
      * exact IH.
Qed.

Lemma mapKeys_mapMutate (k : nat) (f : FrameState → FrameState) (m : FrameStates) :
  mapKeys (mapMutate k f m) = mapKeys m.
Proof.
  unfold mapKeys. induction m as [|[k0 v] m IH]; [done|].
  simpl mapMutate. destruct (decide (k0 = k)); rewrite !fmap_cons; simpl; [done|].
  by rewrite IH.
Qed.

Lemma mapKeys_mapSet (k : nat) (v : FrameState) (m : FrameStates) :
  mapKeys (mapSet k v m) =
  if decide (k ∈ mapKeys m) then mapKeys m else mapKeys m ++ [k].
Proof.
  unfold mapKeys. induction m as [|[k0 v0] m IH].
  - case_decide as H; [by apply elem_of_nil in H | reflexivity].
  - simpl mapSet. destruct (decide (k0 = k)) as [->|Hne]; rewrite !fmap_cons;
      simpl fst.
    + rewrite decide_True; [done|]. apply elem_of_cons; by left.
    + rewrite IH. destruct (decide (k ∈ m.*1)) as [Hin|Hnin].
      * rewrite decide_True; [done|]. apply elem_of_cons; by right.
      * rewrite decide_False; [done|].
        rewrite elem_of_cons. intros [?|?]; [congruence|done].
Qed.

(** The entry of a key is an element of the association list. *)
Lemma mapGet_elem_of (k : nat) (v : FrameState) (m : FrameStates) :
  mapGet k m = Some v → (k, v) ∈ m.
Proof.
  induction m as [|[k0 v0] m IH]; simpl; [done|].
  destruct (decide (k0 = k)) as [->|Hne].
  - intros [= ->]. apply elem_of_cons; by left.
  - intros H. apply elem_of_cons; right. by apply IH.
Qed.

Lemma elem_of_mapGet (k : nat) (v : FrameState) (m : FrameStates) :
  NoDup (mapKeys m) → (k, v) ∈ m → mapGet k m = Some v.
Proof.
  unfold mapKeys. induction m as [|[k0 v0] m IH]; simpl; intros Hnd Hin.
  - by apply elem_of_nil in Hin.
  - apply NoDup_cons in Hnd as [Hk0 Hnd].
    apply elem_of_cons in Hin as [[= -> ->]|Hin].
    + by rewrite decide_True.
    + rewrite decide_False; [by apply IH|].
      intros ->. apply Hk0. apply list_elem_of_fmap. by exists (k, v).
Qed.

(** ** First pass *)

Lemma firstPass_snoc (l : list Event) (e : Event) (s t : Q) :
  firstPass (l ++ [e]) s t = selectEvent s t (firstPass l s t) e.
Proof. unfold firstPass. by rewrite fold_left_app. Qed.

Lemma selectedEvents_snoc (l : list Event) (e : Event) (s t : Q) :
  selectedEvents (l ++ [e]) s t =
  selectedEvents l s t ++ (if inInterval s t e then [e] else []).
Proof.
  unfold selectedEvents. rewrite filter_app. f_equal.
  rewrite filter_cons, filter_nil.
  destruct (inInterval s t e); by case_decide.
Qed.

Lemma selectEvent_states (s t : Q) (sel : Selection) (e : Event) (k : nat) :
  inInterval s t e = true →
  mapGet k (frameStates (selectEvent s t sel e)) =
  if decide (k = frame e)
  then Some (mark e (default initialState (mapGet k (frameStates sel))))
  else mapGet k (frameStates sel).
Proof.
  intros Hin. unfold selectEvent. rewrite Hin.
  assert (Hboth : ∀ g,
    mapGet k (mapMutate (frame e) g
      (if mapHas (frame e) (frameStates sel) then frameStates sel
       else mapSet (frame e) initialState (frameStates sel))) =
    if decide (k = frame e)
    then Some (g (default initialState (mapGet k (frameStates sel))))
    else mapGet k (frameStates sel)).
  { intros g. rewrite mapGet_mapMutate.
    destruct (decide (k = frame e)) as [->|Hne].
    - destruct (mapHas (frame e) (frameStates sel)) eqn:Hhas.
      + apply mapHas_true in Hhas as [v Hv]. by rewrite Hv.
      + rewrite mapGet_mapSet, decide_True by done.
        assert (mapGet (frame e) (frameStates sel) = None) as ->; [|done].
        apply eq_None_not_Some. rewrite <- mapHas_true. congruence.
    - destruct (mapHas (frame e) (frameStates sel)); [done|].
      by rewrite mapGet_mapSet, decide_False. }
  unfold mark. destruct (type e); simpl; apply Hboth.
Qed.

Lemma selectEvent_keys (s t : Q) (sel : Selection) (e : Event) :
  inInterval s t e = true →
  mapKeys (frameStates (selectEvent s t sel e)) =
  if decide (frame e ∈ mapKeys (frameStates sel))
  then mapKeys (frameStates sel)
  else mapKeys (frameStates sel) ++ [frame e].
Proof.
  intros Hin. unfold selectEvent. rewrite Hin.
  assert (Hboth : ∀ g,
    mapKeys (mapMutate (frame e) g
      (if mapHas (frame e) (frameStates sel) then frameStates sel
       else mapSet (frame e) initialState (frameStates sel))) =
    if decide (frame e ∈ mapKeys (frameStates sel))
    then mapKeys (frameStates sel)
    else mapKeys (frameStates sel) ++ [frame e]).
  { intros g. rewrite mapKeys_mapMutate.
    destruct (mapHas (frame e) (frameStates sel)) eqn:Hhas.
    - rewrite decide_True; [done|]. by apply mapKeys_mapGet, mapHas_true.
    - rewrite mapKeys_mapSet. done. }
  destruct (type e); simpl; apply Hboth.
Qed.

Lemma selectEvent_filtered (s t : Q) (sel : Selection) (e : Event) :
  filteredEvents (selectEvent s t sel e) =
  filteredEvents sel ++ (if inInterval s t e then [e] else []).
Proof.
  unfold selectEvent. destruct (inInterval s t e).
  - by destruct (type e).
  - by rewrite app_nil_r.
Qed.

Lemma selectEvent_framesInInterval (s t : Q) (sel : Selection) (e : Event) :
  framesInInterval (selectEvent s t sel e) =
  if inInterval s t e then framesInInterval sel ∪ {[ frame e ]}
  else framesInInterval sel.
Proof.
  unfold selectEvent. destruct (inInterval s t e); [|done]. by destruct (type e).
Qed.

(** ** Counting events and first references *)

Lemma countEvents_app (ty : EventType) (f : nat) (l1 l2 : list Event) :
  countEvents ty f (l1 ++ l2) = (countEvents ty f l1 + countEvents ty f l2)%nat.
Proof. unfold countEvents. by rewrite filter_app, length_app. Qed.

Lemma countEvents_singleton (ty : EventType) (f : nat) (e : Event) :
  countEvents ty f [e] = if decide (type e = ty ∧ frame e = f) then 1%nat else 0%nat.
Proof.
  unfold countEvents. rewrite filter_cons, filter_nil. by case_decide.
Qed.

#[global] Instance countEvents_perm (ty : EventType) (f : nat) :
  Proper ((≡ₚ) ==> (=)) (countEvents ty f).
Proof. intros l1 l2 Hp. unfold countEvents. by rewrite Hp. Qed.

Lemma countEvents_pos (ty : EventType) (f : nat) (l : list Event) :
  (0 < countEvents ty f l)%nat ↔ ∃ e, e ∈ l ∧ type e = ty ∧ frame e = f.
Proof.
  unfold countEvents. split.
  - intros Hpos.
    destruct (filter (λ e, type e = ty ∧ frame e = f) l) as [|e l'] eqn:Hf;
      [simpl in Hpos; lia|].
    assert (He : e ∈ filter (λ e, type e = ty ∧ frame e = f) l)
      by (rewrite Hf; apply elem_of_cons; by left).
    apply list_elem_of_filter in He as [[? ?] ?]. eauto.
  - intros (e & He & Hty & Hfr).
    assert (He' : e ∈ filter (λ e, type e = ty ∧ frame e = f) l)
      by (apply list_elem_of_filter; auto).
    destruct (filter (λ e, type e = ty ∧ frame e = f) l); simpl; [|lia].
    by apply elem_of_nil in He'.
Qed.

Lemma countEvents_notin (ty : EventType) (f : nat) (l : list Event) :
  f ∉ frame <$> l → countEvents ty f l = 0%nat.
Proof.
  intros Hnin. destruct (countEvents ty f l) eqn:Hc; [done|].
  exfalso. apply Hnin.
  assert (Hpos : (0 < countEvents ty f l)%nat) by lia.
  apply countEvents_pos in Hpos as (e & He & _ & <-).
  by apply list_elem_of_fmap_2.
Qed.

Lemma elem_of_firstReferences (x : nat) (l : list nat) :
  x ∈ firstReferences l ↔ x ∈ l.
Proof.
  induction l as [|a l IH]; simpl; [done|].
  rewrite !elem_of_cons, list_elem_of_filter, IH.
  destruct (decide (x = a)); tauto.
Qed.

Lemma NoDup_firstReferences (l : list nat) : NoDup (firstReferences l).
Proof.
  induction l as [|a l IH]; simpl; [constructor|].
  apply NoDup_cons. split.
  - rewrite list_elem_of_filter. intros [Hn _]. by apply Hn.
  - by apply NoDup_filter.
Qed.

Lemma firstReferences_snoc (l : list nat) (x : nat) :
  firstReferences (l ++ [x]) =
  if decide (x ∈ l) then firstReferences l else firstReferences l ++ [x].
Proof.
  induction l as [|a l IH].
  - rewrite decide_False by apply not_elem_of_nil. reflexivity.
  - simpl. rewrite IH. destruct (decide (x ∈ l)) as [Hin|Hnin].
    + rewrite decide_True; [done|]. apply elem_of_cons; by right.
    + rewrite filter_app, filter_cons, filter_nil.
      destruct (decide (x = a)) as [->|Hne].
      * rewrite (decide_True (P := a ∈ a :: l)) by (apply elem_of_cons; by left).
        rewrite (decide_False (P := a ≠ a)) by (intros Hn; by apply Hn).
        by rewrite app_nil_r.
      * rewrite (decide_False (P := x ∈ a :: l))
          by (rewrite elem_of_cons; intros [?|?]; [congruence|done]).
        by rewrite (decide_True (P := x ≠ a)).
Qed.

(** ** What the first pass computes *)

Lemma hasOpen_mark (e : Event) (st : FrameState) :
  hasOpen (mark e st) = bool_decide (type e = OpenFrame) || hasOpen st.
Proof. unfold mark. by destruct (type e). Qed.

Lemma hasClose_mark (e : Event) (st : FrameState) :
  hasClose (mark e st) = bool_decide (type e = CloseFrame) || hasClose st.
Proof. unfold mark. by destruct (type e). Qed.

Lemma flag_after (ty : EventType) (e : Event) (n : nat) :
  bool_decide (type e = ty) || bool_decide (0 < n)%nat =
  bool_decide
    (0 < n + (if decide (type e = ty ∧ frame e = frame e) then 1 else 0))%nat.
Proof.
  destruct (decide (type e = ty)) as [H|H].
  - rewrite (bool_decide_eq_true_2 (type e = ty)) by done.
    rewrite decide_True by done. symmetry. apply bool_decide_eq_true_2. lia.
  - rewrite (bool_decide_eq_false_2 (type e = ty)) by done.
    rewrite decide_False by tauto. by rewrite Nat.add_0_r.
Qed.

Lemma firstPass_spec (l : list Event) (s t : Q) :
  let fp := firstPass l s t in
  let sel := selectedEvents l s t in
  filteredEvents fp = sel ∧
  framesInInterval fp = list_to_set (frame <$> sel) ∧
  mapKeys (frameStates fp) = firstReferences (frame <$> sel) ∧
  ∀ k st, mapGet k (frameStates fp) = Some st →
    hasOpen st = bool_decide (0 < countEvents OpenFrame k sel)%nat ∧
    hasClose st = bool_decide (0 < countEvents CloseFrame k sel)%nat.
Proof.
  induction l as [|e l IH] using rev_ind.
  - simpl. repeat split; try done.
  - cbv zeta in *. destruct IH as (IHf & IHs & IHk & IHst).
    rewrite firstPass_snoc, selectedEvents_snoc.
    destruct (inInterval s t e) eqn:Hin.
    2:{ unfold selectEvent. rewrite Hin, app_nil_r. auto. }
    split; [|split; [|split]].
    + by rewrite selectEvent_filtered, Hin, IHf.
    + rewrite selectEvent_framesInInterval, Hin, IHs.
      rewrite fmap_app, list_to_set_app_L. simpl. set_solver.
    + rewrite selectEvent_keys by done. rewrite IHk.
      rewrite fmap_app. simpl. rewrite firstReferences_snoc.
      destruct (decide (frame e ∈ frame <$> selectedEvents l s t)) as [Hm|Hm].
      * rewrite decide_True; [done|]. by apply elem_of_firstReferences.
      * rewrite decide_False; [done|]. by rewrite elem_of_firstReferences.
    + intros k st. rewrite selectEvent_states by done.
      rewrite !countEvents_app, !countEvents_singleton.
      destruct (decide (k = frame e)) as [->|Hne].
      * intros [= <-]. rewrite hasOpen_mark, hasClose_mark.
        destruct (mapGet (frame e) (frameStates (firstPass l s t)))
          as [st0|] eqn:Hg; simpl.
        -- destruct (IHst _ _ Hg) as [-> ->]. split; apply flag_after.
        -- apply mapGet_None in Hg.
           rewrite IHk, elem_of_firstReferences in Hg.
           rewrite !(countEvents_notin _ _ _ Hg).
           split; apply (flag_after _ e 0).
      * intros Hg. destruct (IHst _ _ Hg) as [-> ->].
        rewrite !decide_False by (intros [_ ?]; congruence).
        by rewrite !Nat.add_0_r.
Qed.

(** ** Second pass *)

Lemma syntheticFor_frame (s t : Q) (k : nat) (st : FrameState) (e : Event) :
  e ∈ syntheticFor s t (k, st) →
  frame e = k ∧
  ((type e = CloseFrame ∧ at_ e = parseIntOfToString t ∧
      hasOpen st = true ∧ hasClose st = false) ∨
   (type e = OpenFrame ∧ at_ e = parseIntOfToString s ∧
      hasOpen st = false ∧ hasClose st = true)).
Proof.
  unfold syntheticFor. destruct (hasOpen st), (hasClose st); simpl;
    rewrite ?elem_of_nil, ?list_elem_of_singleton; try done;
    intros ->; simpl; split; auto 6.
Qed.

Lemma syntheticFor_length (s t : Q) (entry : nat * FrameState) :
  (length (syntheticFor s t entry) ≤ 1)%nat.
Proof.
  destruct entry as [k st]. unfold syntheticFor.
  destruct (hasOpen st), (hasClose st); simpl; lia.
Qed.

Lemma secondPass_length (s t : Q) (m : FrameStates) :
  (length (secondPass s t m) ≤ length m)%nat.
Proof.
  unfold secondPass. induction m as [|entry m IH]; simpl; [done|].
  rewrite length_app. pose proof (syntheticFor_length s t entry). lia.
Qed.

Lemma secondPass_elem_of (s t : Q) (m : FrameStates) (e : Event) :
  e ∈ secondPass s t m ↔ ∃ k st, (k, st) ∈ m ∧ e ∈ syntheticFor s t (k, st).
Proof.
  unfold secondPass. rewrite list_elem_of_In, in_flat_map. split.
  - intros ([k st] & Hin & He). exists k, st.
    by rewrite !list_elem_of_In.
  - intros (k & st & Hin & He). exists (k, st).
    by rewrite <- !list_elem_of_In.
Qed.

Lemma countEvents_syntheticFor_ne (s t : Q) (ty : EventType) (f k : nat)
    (st : FrameState) :
  k ≠ f → countEvents ty f (syntheticFor s t (k, st)) = 0%nat.
Proof.
  intros Hne. destruct (countEvents ty f (syntheticFor s t (k, st))) eqn:Hc;
    [done|].
  assert (Hpos : (0 < countEvents ty f (syntheticFor s t (k, st)))%nat) by lia.
  apply countEvents_pos in Hpos as (e & He & _ & Hf).
  apply syntheticFor_frame in He as [Hk _]. congruence.
Qed.

Lemma countEvents_secondPass (s t : Q) (ty : EventType) (f : nat) (m : FrameStates) :
  NoDup (mapKeys m) →
  countEvents ty f (secondPass s t m) =
  match mapGet f m with
  | Some st => countEvents ty f (syntheticFor s t (f, st))
  | None => 0%nat
  end.
Proof.
  unfold mapKeys, secondPass. induction m as [|[k st] m IH]; intros Hnd; [done|].
  rewrite fmap_cons in Hnd. apply NoDup_cons in Hnd as [Hk Hnd].
  change (flat_map (syntheticFor s t) ((k, st) :: m))
    with (syntheticFor s t (k, st) ++ flat_map (syntheticFor s t) m).
  rewrite countEvents_app, (IH Hnd). simpl mapGet.
  destruct (decide (k = f)) as [->|Hne].
  - assert (mapGet f m = None) as -> by (by apply mapGet_None).
    apply Nat.add_0_r.
  - by rewrite countEvents_syntheticFor_ne.
Qed.

(** ** The filter as a whole *)

Lemma filterEventsWithContext_perm (l : list Event) (s t : Q) :
  filterEventsWithContext l s t ≡ₚ selectedEvents l s t ++ syntheticEvents l s t.
Proof.
  unfold filterEventsWithContext, syntheticEvents. rewrite sortByAt_perm.
  destruct (firstPass_spec l s t) as (-> & _). done.
Qed.

Lemma filterEventsWithContext_sorted (l : list Event) (s t : Q) :
  StronglySorted leAt (filterEventsWithContext l s t).
Proof. apply sortByAt_sorted. Qed.

Lemma frameStates_NoDup (l : list Event) (s t : Q) :
  NoDup (mapKeys (frameStates (firstPass l s t))).
Proof.
  destruct (firstPass_spec l s t) as (_ & _ & -> & _).
  apply NoDup_firstReferences.
Qed.

Lemma countEvents_syntheticFor_eq (s t : Q) (ty : EventType) (f : nat)
    (st : FrameState) :
  countEvents ty f (syntheticFor s t (f, st)) =
  if hasOpen st && negb (hasClose st)
  then (if decide (ty = CloseFrame) then 1%nat else 0%nat)
  else if negb (hasOpen st) && hasClose st
       then (if decide (ty = OpenFrame) then 1%nat else 0%nat)
       else 0%nat.
Proof.
  unfold syntheticFor.
  destruct (hasOpen st), (hasClose st); simpl; try done;
    rewrite countEvents_singleton; simpl;
    destruct ty; repeat case_decide; try done; naive_solver.
Qed.

(** Number of synthetic closes and opens of a frame, from the numbers of its
    opens and closes in the window. *)
Lemma countEvents_synthetic (l : list Event) (s t : Q) (f : nat) :
  let nO := countEvents OpenFrame f (selectedEvents l s t) in
  let nC := countEvents CloseFrame f (selectedEvents l s t) in
  countEvents CloseFrame f (syntheticEvents l s t) =
    (if bool_decide (0 < nO)%nat && bool_decide (nC = 0)%nat then 1 else 0)%nat ∧
  countEvents OpenFrame f (syntheticEvents l s t) =
    (if bool_decide (nO = 0)%nat && bool_decide (0 < nC)%nat then 1 else 0)%nat.
Proof.
  cbv zeta. unfold syntheticEvents.
  rewrite !countEvents_secondPass by apply frameStates_NoDup.
  destruct (firstPass_spec l s t) as (_ & _ & Hk & Hst).
  destruct (mapGet f (frameStates (firstPass l s t))) as [st|] eqn:Hg.
  - destruct (Hst _ _ Hg) as [HO HC].
    rewrite !countEvents_syntheticFor_eq, HO, HC.
    repeat case_bool_decide; simpl; repeat case_decide; try done; lia.
  - apply mapGet_None in Hg. rewrite Hk, elem_of_firstReferences in Hg.
    rewrite !(countEvents_notin _ _ _ Hg). done.
Qed.

Lemma countEvents_output (l : list Event) (s t : Q) (ty : EventType) (f : nat) :
  countEvents ty f (filterEventsWithContext l s t) =
  (countEvents ty f (selectedEvents l s t) +
   countEvents ty f (syntheticEvents l s t))%nat.
Proof. by rewrite filterEventsWithContext_perm, countEvents_app. Qed.

(** A list in which every frame has as many opens as closes has an even
    number of events. *)
Lemma countEvents_count_occ (ty : EventType) (f : nat) (l : list Event) :
  countEvents ty f l =
  count_occ Nat.eq_dec (frame <$> filter (λ e, type e = ty) l) f.
Proof.
  unfold countEvents. induction l as [|e l IH]; [done|].
  rewrite !filter_cons.
  destruct (decide (type e = ty)) as [Hty|Hty].
  - rewrite fmap_cons. simpl count_occ.
    destruct (Nat.eq_dec (frame e) f) as [Hf|Hf].
    + rewrite decide_True by done. simpl. by rewrite IH.
    + rewrite decide_False by (intros [_ ?]; done). exact IH.
  - rewrite decide_False by (intros [? _]; done). exact IH.
Qed.

Lemma length_by_type (l : list Event) :
  length l =
  (length (filter (λ e, type e = OpenFrame) l) +
   length (filter (λ e, type e = CloseFrame) l))%nat.
Proof.
  induction l as [|e l IH]; [done|].
  rewrite !filter_cons. destruct e as [[] f a]; simpl; lia.
Qed.

Lemma balanced_even (l : list Event) :
  (∀ f, countEvents OpenFrame f l = countEvents CloseFrame f l) →
  Nat.Even (length l).
Proof.
  intros Hbal.
  assert (Hp : frame <$> filter (λ e, type e = OpenFrame) l ≡ₚ
               frame <$> filter (λ e, type e = CloseFrame) l).
  { apply (Permutation_count_occ Nat.eq_dec). intros f.
    rewrite <- !countEvents_count_occ. apply Hbal. }
  apply Permutation_length in Hp. rewrite !length_fmap in Hp.
  exists (length (filter (λ e, type e = CloseFrame) l)).
  rewrite (length_by_type l). lia.
Qed.

Lemma scenarioA_encoded : events (forEachCall scenarioAProfile) = scenarioA.
Proof. reflexivity. Qed.

(** ** Balance *)

(** For each frame, the output is balanced exactly when the frame's opens
    and closes in the window are equal in number, or the frame has a single
    event there. *)
Lemma balanced_frame_iff (l : list Event) (s t : Q) (f : nat) :
  let nO := countEvents OpenFrame f (selectedEvents l s t) in
  let nC := countEvents CloseFrame f (selectedEvents l s t) in
  countEvents OpenFrame f (filterEventsWithContext l s t) =
  countEvents CloseFrame f (filterEventsWithContext l s t)
  ↔ nO = nC ∨ (nO = 1 ∧ nC = 0)%nat ∨ (nO = 0 ∧ nC = 1)%nat.
Proof.
  cbv zeta. rewrite !countEvents_output.
  destruct (countEvents_synthetic l s t f) as [-> ->].
  repeat case_bool_decide; simpl; lia.
Qed.

(** C1 (as stated, refuted): on the stream of a frame that calls itself,
    the window [0,3] keeps two opens and one close of frame 0 and
    synthesizes nothing; the output has three events. *)
Lemma filter_balance_counterexample :
  let out := filterEventsWithContext recursiveStream 0 3 in
  (0 <= 3)%Q ∧
  ¬ Nat.Even (length out) ∧
  countEvents OpenFrame 0 out ≠ countEvents CloseFrame 0 out.
Proof.
  cbv zeta.
  assert (Hout : filterEventsWithContext recursiveStream 0 3 =
                 [ mkEvent OpenFrame 0 0; mkEvent OpenFrame 0 1;
                   mkEvent CloseFrame 0 2 ]) by reflexivity.
  rewrite Hout. split; [done|]. split.
  - intros [k Hk]. simpl in Hk. lia.
  - discriminate.
Qed.

(** C1 (amended): for every event stream and every window, the output of
    [filterEventsWithContext] has, for every frame index, as many opens as
    closes if and only if every frame index has, among the input events
    inside the window, as many opens as closes or a single event; and then
    the output has even length. *)
Theorem filter_balance (events : list Event) (intervalStart intervalEnd : Q) :
  let out := filterEventsWithContext events intervalStart intervalEnd in
  ((∀ f, countEvents OpenFrame f out = countEvents CloseFrame f out) ↔
   balancedInWindow events intervalStart intervalEnd) ∧
  (balancedInWindow events intervalStart intervalEnd → Nat.Even (length out)).
Proof.
  cbv zeta.
  assert (Hiff : (∀ f,
    countEvents OpenFrame f (filterEventsWithContext events intervalStart intervalEnd) =
    countEvents CloseFrame f (filterEventsWithContext events intervalStart intervalEnd))
    ↔ balancedInWindow events intervalStart intervalEnd).
  { unfold balancedInWindow.
    split; intros H f; by apply (balanced_frame_iff events _ _ f). }
  split; [exact Hiff|].
  intros Hbal. apply balanced_even. by apply Hiff.
Qed.

Lemma filter_balance_witness :
  balancedInWindow repeatedStream 0 3 ∧
  Nat.Even (length (filterEventsWithContext repeatedStream 0 3)) ∧
  ∀ f, countEvents OpenFrame f (filterEventsWithContext repeatedStream 0 3) =
       countEvents CloseFrame f (filterEventsWithContext repeatedStream 0 3).
Proof.
  assert (H : balancedInWindow repeatedStream 0 3).
  { intros f. destruct f as [|f]; vm_compute; lia. }
  destruct (filter_balance repeatedStream 0 3) as [Hiff Heven].
  split; [exact H|]. split; [by apply Heven | by apply Hiff].
Defined.

(** ** Window containment *)

Lemma selectedEvents_elem_of (l : list Event) (s t : Q) (e : Event) :
  e ∈ selectedEvents l s t ↔ inInterval s t e = true ∧ e ∈ l.
Proof. unfold selectedEvents. by rewrite list_elem_of_filter. Qed.

Lemma syntheticEvents_elem_of (l : list Event) (s t : Q) (e : Event) :
  e ∈ syntheticEvents l s t →
  (type e = CloseFrame ∧ at_ e = parseIntOfToString t) ∨
  (type e = OpenFrame ∧ at_ e = parseIntOfToString s).
Proof.
  unfold syntheticEvents. rewrite secondPass_elem_of.
  intros (k & st & _ & He). apply syntheticFor_frame in He.
  naive_solver.
Qed.

Lemma filterEventsWithContext_elem_of (l : list Event) (s t : Q) (e : Event) :
  e ∈ filterEventsWithContext l s t ↔
  e ∈ selectedEvents l s t ∨ e ∈ syntheticEvents l s t.
Proof. by rewrite filterEventsWithContext_perm, elem_of_app. Qed.

(** Where an output event comes from. *)
Lemma filterEventsWithContext_cases (l : list Event) (s t : Q) (e : Event) :
  e ∈ filterEventsWithContext l s t →
  (e ∈ l ∧ (s <= inject_Z (at_ e))%Q ∧ (inject_Z (at_ e) <= t)%Q) ∨
  (type e = CloseFrame ∧ at_ e = parseIntOfToString t) ∨
  (type e = OpenFrame ∧ at_ e = parseIntOfToString s).
Proof.
  intros He. apply filterEventsWithContext_elem_of in He as [He|He].
  - left. apply selectedEvents_elem_of in He as [Hin He].
    apply inInterval_spec in Hin. tauto.
  - right. by apply syntheticEvents_elem_of in He.
Qed.

(** An output event of a window with integer bounds below 1e21 lies in the
    window. *)
Lemma filter_in_integer_window (l : list Event) (s t : Z) (e : Event) :
  - 10 ^ 21 < s → s ≤ t → t < 10 ^ 21 →
  e ∈ filterEventsWithContext l (inject_Z s) (inject_Z t) → s ≤ at_ e ≤ t.
Proof.
  intros Hs Hst Ht He.
  destruct (filterEventsWithContext_cases _ _ _ _ He)
    as [(_ & H1 & H2)|[[_ ->]|[_ ->]]].
  - rewrite <- Zle_Qle in H1, H2. lia.
  - rewrite parseIntOfToString_integer; lia.
  - rewrite parseIntOfToString_integer; lia.
Qed.

(** An output event of a window with 0 ≤ start ≤ end whose bounds are
    printed in positional notation lies between the integer part of the
    start and the end. *)
Lemma filter_in_positional_window (l : list Event) (s t : Q) (e : Event) :
  (0 <= s)%Q → (s <= t)%Q →
  printsPositional s = true → printsPositional t = true →
  e ∈ filterEventsWithContext l s t →
  parseIntOfToString s ≤ at_ e ∧ (inject_Z (at_ e) <= t)%Q.
Proof.
  intros Hs Hst Hps Hpt He.
  assert (Ht : (0 <= t)%Q) by (by eapply Qle_trans).
  destruct (filterEventsWithContext_cases _ _ _ _ He)
    as [(_ & H1 & H2)|[[_ ->]|[_ ->]]].
  - split; [|exact H2].
    rewrite (parseIntOfToString_positional s Hps).
    apply integerPart_mono in H1. by rewrite integerPart_integer in H1.
  - split; [by apply parseIntOfToString_mono|].
    rewrite (parseIntOfToString_positional t Hpt). by apply integerPart_le.
  - split; [lia|].
    rewrite (parseIntOfToString_positional s Hps).
    eapply Qle_trans; [by apply integerPart_le | exact Hst].
Qed.




(** ** Synthetic bound *)

Lemma size_firstReferences (l : list nat) :
  length (firstReferences l) = size (list_to_set l : gset nat).
Proof.
  rewrite <- (size_list_to_set (C := gset nat) (firstReferences l))
    by apply NoDup_firstReferences.
  f_equal. apply set_eq. intros x.
  by rewrite !elem_of_list_to_set, elem_of_firstReferences.
Qed.

(** C8: the output is the selected events plus the synthetic ones, and the
    number of synthetic events is at most twice the number of distinct frame
    indices with an event inside the window (which is also the size of
    [framesInInterval] and of [frameStates]); in fact at most that number. *)
Theorem filter_synthetic_bound (events : list Event) (intervalStart intervalEnd : Q) :
  let selected := selectedEvents events intervalStart intervalEnd in
  let synthetic := syntheticEvents events intervalStart intervalEnd in
  let distinct := size (list_to_set (frame <$> selected) : gset nat) in
  length (filterEventsWithContext events intervalStart intervalEnd) =
    (length selected + length synthetic)%nat ∧
  size (framesInInterval (firstPass events intervalStart intervalEnd)) = distinct ∧
  (length synthetic ≤ distinct)%nat ∧
  (length synthetic ≤ 2 * distinct)%nat.
Proof.
  cbv zeta.
  destruct (firstPass_spec events intervalStart intervalEnd) as (_ & Hset & Hk & _).
  assert (Hlen : (length (syntheticEvents events intervalStart intervalEnd) ≤
    size (list_to_set (frame <$> selectedEvents events intervalStart intervalEnd)
            : gset nat))%nat).
  { rewrite <- size_firstReferences, <- Hk. unfold mapKeys.
    rewrite length_fmap. apply secondPass_length. }
  repeat split.
  - by rewrite filterEventsWithContext_perm, length_app.
  - by rewrite Hset.
  - exact Hlen.
  - lia.
Qed.

(** ** Scenario A *)

(** C4 (as stated, refuted): the output for the window [200,600] is not the
    four events of B and C plus synthetic events only: the open of D at 600
    is selected as well, by the inclusive test [at <= intervalEnd]. *)
Lemma scenarioA_counterexample :
  let four := [ mkEvent OpenFrame 2 200; mkEvent OpenFrame 3 300;
                mkEvent CloseFrame 3 400; mkEvent CloseFrame 2 500 ] in
  selectedEvents scenarioA 200 600 ≠ four ∧
  ¬ ∃ synthetic,
      (∀ e, e ∈ synthetic → e ∈ syntheticEvents scenarioA 200 600) ∧
      filterEventsWithContext scenarioA 200 600 ≡ₚ four ++ synthetic.
Proof.
  cbv zeta. split; [discriminate|].
  intros (syn & Hsyn & Hperm).
  assert (Hin : mkEvent OpenFrame 4 600 ∈ filterEventsWithContext scenarioA 200 600).
  { do 4 (apply elem_of_cons; right). apply elem_of_cons; by left. }
  rewrite Hperm in Hin. apply elem_of_app in Hin as [Hin|Hin].
  - repeat (apply elem_of_cons in Hin as [Hin|Hin]; [discriminate|]).
    by apply elem_of_nil in Hin.
  - apply Hsyn in Hin.
    apply elem_of_cons in Hin as [Hin|Hin]; [discriminate|].
    by apply elem_of_nil in Hin.
Qed.

(** C4 (amended): on scenario A with the window [200,600] the selected
    events are the open and close of B and of C and the open of D at 600,
    the only synthetic event is a close of D at 600, the output is these six
    events in this order, and it has no event of main or of A. *)
Theorem scenarioA_filtered :
  events (forEachCall scenarioAProfile) = scenarioA ∧
  selectedEvents scenarioA 200 600 =
    [ mkEvent OpenFrame 2 200; mkEvent OpenFrame 3 300;
      mkEvent CloseFrame 3 400; mkEvent CloseFrame 2 500;
      mkEvent OpenFrame 4 600 ] ∧
  syntheticEvents scenarioA 200 600 = [ mkEvent CloseFrame 4 600 ] ∧
  filterEventsWithContext scenarioA 200 600 =
    [ mkEvent OpenFrame 2 200; mkEvent OpenFrame 3 300;
      mkEvent CloseFrame 3 400; mkEvent CloseFrame 2 500;
      mkEvent OpenFrame 4 600; mkEvent CloseFrame 4 600 ] ∧
  Forall (λ e, frame e ≠ 0%nat ∧ frame e ≠ 1%nat)
    (filterEventsWithContext scenarioA 200 600).
Proof.
  repeat split; try reflexivity.
  repeat (apply Forall_cons; split; [split; discriminate|]).
  apply Forall_nil_2.
Qed.

(** ** Export *)

Lemma selectEvent_outside (s t : Q) (sel : Selection) (e : Event) :
  inInterval s t e = false → selectEvent s t sel e = sel.
Proof. intros H. unfold selectEvent. by rewrite H. Qed.

Lemma firstPass_inverted (l : list Event) (s t : Q) :
  (t < s)%Q → firstPass l s t = emptySelection.
Proof.
  intros Hlt. unfold firstPass. generalize emptySelection.
  induction l as [|e l IH]; intros sel; simpl; [done|].
  rewrite selectEvent_outside by (by apply inInterval_empty). apply IH.
Qed.

Lemma filterEventsWithContext_inverted (l : list Event) (s t : Q) :
  (t < s)%Q → filterEventsWithContext l s t = [].
Proof.
  intros Hlt. unfold filterEventsWithContext. by rewrite firstPass_inverted.
Qed.

(** C3 (as stated, refuted): "Export JSON" on scenario A with the inverted
    window [600, 200] ends in a download, not in a failure. *)
Lemma export_inverted_window_counterexample :
  (200 < 600)%Q ∧
  ¬ ∃ message, handleExportJson scenarioAProfile 600 200 = Alerted message.
Proof.
  split; [done|]. intros [message H]. discriminate H.
Qed.

(** C3 (amended): a window with start > end is not rejected:
    [handleExportJson] runs [filterEventsWithContext] on it, which selects
    and synthesizes nothing, and the export downloads a document with the
    whole frame table, no events and startValue = endValue = 0. *)
Theorem export_inverted_window (profile : list Call) (startValue endValue : Q) :
  (endValue < startValue)%Q →
  filterEventsWithContext (events (forEachCall profile)) startValue endValue = [] ∧
  handleExportJson profile startValue endValue =
    Downloaded {| sharedFrames := frames (interner (forEachCall profile));
                  profileStartValue := 0;
                  profileEndValue := 0;
                  profileEvents := [] |}.
Proof.
  intros Hlt. split; [by apply filterEventsWithContext_inverted|].
  unfold handleExportJson. by rewrite filterEventsWithContext_inverted.
Qed.

Lemma export_inverted_window_witness :
  (200 < 600)%Q ∧
  ∃ table, handleExportJson scenarioAProfile 600 200 =
    Downloaded {| sharedFrames := table; profileStartValue := 0;
                  profileEndValue := 0; profileEvents := [] |}.
Proof.
  split; [done|]. eexists.
  apply (export_inverted_window scenarioAProfile 600 200). done.
Defined.

(** The events of the encoder are results of [parseInt], and so are the
    synthetic events: every event the export handles is an integer below
    1e21 in absolute value, which is printed digit by digit. *)
Lemma forEachCall_at_bound (profile : list Call) :
  Forall (λ e, - 10 ^ 21 < at_ e < 10 ^ 21) (events (forEachCall profile)).
Proof.
  unfold forEachCall.
  assert (Hgen : ∀ st,
    Forall (λ e, - 10 ^ 21 < at_ e < 10 ^ 21) (events st) →
    Forall (λ e, - 10 ^ 21 < at_ e < 10 ^ 21)
      (events (fold_left
         (λ st c, match c with
                  | CallOpen fr v => openFrame fr v st
                  | CallClose fr v => closeFrame fr v st
                  end) profile st))).
  { induction profile as [|c profile IH]; intros st Hst; simpl; [done|].
    apply IH. destruct c as [fr v|fr v]; unfold openFrame, closeFrame;
      destruct (getIndexForFrame fr (interner st)) as [index itn]; simpl;
      (apply Forall_app; split; [done|]);
      (apply Forall_cons; split; [apply parseIntOfToString_bound|]);
      apply Forall_nil_2. }
  apply Hgen. apply Forall_nil_2.
Qed.

Lemma filter_at_bound (l : list Event) (s t : Q) :
  Forall (λ e, - 10 ^ 21 < at_ e < 10 ^ 21) l →
  Forall (λ e, - 10 ^ 21 < at_ e < 10 ^ 21) (filterEventsWithContext l s t).
Proof.
  intros Hl. apply Forall_forall. intros e He.
  destruct (filterEventsWithContext_cases _ _ _ _ He)
    as [(Hin & _)|[[_ ->]|[_ ->]]].
  - rewrite Forall_forall in Hl. by apply Hl.
  - apply parseIntOfToString_bound.
  - apply parseIntOfToString_bound.
Qed.

(** The document that [handleExportJson] downloads, in terms of the filter. *)
Lemma handleExportJson_document (profile : list Call) (s t : Q) :
  let final := filterEventsWithContext (events (forEachCall profile)) s t in
  handleExportJson profile s t =
  Downloaded
    {| sharedFrames := frames (interner (forEachCall profile));
       profileStartValue :=
         match final !! 0%nat with Some first => at_ first | None => 0 end;
       profileEndValue :=
         match final !! (length final - 1)%nat with
         | Some lastEvent => at_ lastEvent | None => 0 end;
       profileEvents := final |}.
Proof.
  cbv zeta. unfold handleExportJson.
  rewrite sortByAt_idem by apply filterEventsWithContext_sorted.
  pose proof (filter_at_bound _ s t (forEachCall_at_bound profile)) as Hb.
  rewrite Forall_forall in Hb.
  do 2 f_equal.
  - destruct (_ !! 0%nat) as [first|] eqn:Hl; [|done].
    apply parseIntOfToString_integer, Hb. by eapply list_elem_of_lookup_2.
  - destruct (_ !! _) as [lastEvent|] eqn:Hl; [|done].
    apply parseIntOfToString_integer, Hb. by eapply list_elem_of_lookup_2.
Qed.





(** ** Frame interner *)

Lemma serializeFrame_fields (fr : Frame) :
  sname (serializeFrame fr) = name fr ∧
  (∀ v, sfile (serializeFrame fr) = Some v ↔ file fr = JsValue v) ∧
  (∀ v, sline (serializeFrame fr) = Some v ↔ line fr = JsValue v) ∧
  (∀ v, scol (serializeFrame fr) = Some v ↔ col fr = JsValue v).
Proof.
  destruct fr as [id n f l c]; simpl.
  repeat split; intros H; destruct f, l, c; simpl in *; congruence.
Qed.

Lemma internerInv_empty (heap : positive → Frame) : internerInv heap emptyInterner.
Proof.
  unfold internerInv, emptyInterner; simpl. repeat split.
  - intros id i H. by rewrite lookup_empty in H.
  - intros id1 id2 i H. by rewrite lookup_empty in H.
Qed.

(** One call: a known identity gets its recorded index and nothing changes;
    a new identity gets the next index and its record is appended. *)
Lemma getIndexForFrame_step (heap : positive → Frame) (fr : Frame) (st : Interner) :
  internerInv heap st → heap (ident fr) = fr →
  let index := (getIndexForFrame fr st).1 in
  let st' := (getIndexForFrame fr st).2 in
  internerInv heap st' ∧
  indexForFrame st' !! ident fr = Some index ∧
  indexForFrame st ⊆ indexForFrame st' ∧
  dom (indexForFrame st') = dom (indexForFrame st) ∪ {[ ident fr ]}.
Proof.
  intros (Hcontent & Hinj & Hsize) Hheap. cbv zeta. unfold getIndexForFrame.
  destruct (indexForFrame st !! ident fr) as [index|] eqn:Hlook;
    unfold internerInv; cbn [fst snd frames indexForFrame].
  - repeat split; try done.
    apply set_eq. intros id. rewrite elem_of_union, elem_of_singleton.
    split; [by left|]. intros [?| ->]; [done|].
    apply elem_of_dom. eauto.
  - repeat split.
    + intros id i. rewrite lookup_insert.
      destruct (decide (ident fr = id)) as [<-|Hne]; simpl.
      * intros [= <-]. rewrite Hheap. apply list_lookup_middle. done.
      * intros Hi. apply lookup_app_l_Some. by apply Hcontent.
    + intros id1 id2 i. rewrite !lookup_insert.
      destruct (decide (ident fr = id1)) as [<-|Hne1],
               (decide (ident fr = id2)) as [<-|Hne2]; simpl; try done.
      * intros [= <-] Hi. apply Hcontent, lookup_lt_Some in Hi. lia.
      * intros Hi [= <-]. apply Hcontent, lookup_lt_Some in Hi. lia.
      * apply Hinj.
    + rewrite map_size_insert_None by done. rewrite length_app; simpl. lia.
    + by rewrite lookup_insert_eq.
    + by apply insert_subseteq.
    + rewrite dom_insert_L. set_solver.
Qed.

Lemma getIndexForFrames_cons (fr : Frame) (frs : list Frame) (st : Interner) :
  getIndexForFrames (fr :: frs) st =
  ((getIndexForFrame fr st).1 ::
     (getIndexForFrames frs (getIndexForFrame fr st).2).1,
   (getIndexForFrames frs (getIndexForFrame fr st).2).2).
Proof.
  simpl. destruct (getIndexForFrame fr st) as [index st1]; simpl.
  by destruct (getIndexForFrames frs st1).
Qed.

Lemma getIndexForFrames_run (heap : positive → Frame) (frs : list Frame)
    (st : Interner) :
  internerInv heap st → (∀ fr, fr ∈ frs → heap (ident fr) = fr) →
  let indices := (getIndexForFrames frs st).1 in
  let st' := (getIndexForFrames frs st).2 in
  internerInv heap st' ∧
  indexForFrame st ⊆ indexForFrame st' ∧
  dom (indexForFrame st') = dom (indexForFrame st) ∪ list_to_set (ident <$> frs) ∧
  length indices = length frs ∧
  ∀ i fr m, frs !! i = Some fr → indices !! i = Some m →
            indexForFrame st' !! ident fr = Some m.
Proof.
  revert st. induction frs as [|fr frs IH]; intros st Hinv Hheap; cbv zeta.
  - simpl. split; [exact Hinv|]. split; [done|]. split; [set_solver|].
    split; [done|]. intros i fr m H. by rewrite lookup_nil in H.
  - rewrite getIndexForFrames_cons. cbn [fst snd].
    destruct (getIndexForFrame_step heap fr st Hinv) as (Hinv1 & Hidx & Hsub & Hdom).
    { apply Hheap. apply elem_of_cons; by left. }
    destruct (IH _ Hinv1) as (Hinv2 & Hsub2 & Hdom2 & Hlen & Hall).
    { intros g Hg. apply Hheap. apply elem_of_cons; by right. }
    split; [exact Hinv2|]. split; [by etrans|]. split; [|split].
    + rewrite Hdom2, Hdom, fmap_cons. set_solver.
    + simpl. by rewrite Hlen.
    + intros [|i] g m; simpl.
      * intros [= <-] [= <-]. by eapply lookup_weaken.
      * apply Hall.
Qed.

Lemma heapOf_consistent (frs : list Frame) :
  (∀ f g, f ∈ frs → g ∈ frs → ident f = ident g → f = g) →
  ∀ fr, fr ∈ frs → heapOf frs (ident fr) = fr.
Proof.
  intros Hcons fr Hfr. unfold heapOf.
  destruct (list_find (λ g, ident g = ident fr) frs) as [[i g]|] eqn:Hfind.
  - apply list_find_Some in Hfind as (Hg & Hid & _).
    apply Hcons; [by eapply list_elem_of_lookup_2 | done | done].
  - apply list_find_None in Hfind. rewrite Forall_forall in Hfind.
    by destruct (Hfind fr Hfr).
Qed.

(** C9: within one export (a run of calls starting from the empty table),
    two calls return the same index exactly when they are given the same
    frame object, so distinct objects get distinct indices whatever their
    fields; the table holds, at the index returned for a frame, the record
    with its name and with its file, line and col when they are not null;
    the table has one record per object; a call for an object not yet in
    the map appends its record and returns the new index, and a call for
    an object in the map returns the recorded index and changes nothing. *)
Theorem getIndexForFrame_interning (frs : list Frame) :
  (∀ f g, f ∈ frs → g ∈ frs → ident f = ident g → f = g) →
  let indices := (getIndexForFrames frs emptyInterner).1 in
  let table := frames (getIndexForFrames frs emptyInterner).2 in
  length indices = length frs ∧
  (∀ i j f g m n,
     frs !! i = Some f → frs !! j = Some g →
     indices !! i = Some m → indices !! j = Some n →
     (m = n ↔ ident f = ident g)) ∧
  (∀ i f m, frs !! i = Some f → indices !! i = Some m →
     table !! m = Some (serializeFrame f) ∧
     sname (serializeFrame f) = name f ∧
     (∀ v, sfile (serializeFrame f) = Some v ↔ file f = JsValue v) ∧
     (∀ v, sline (serializeFrame f) = Some v ↔ line f = JsValue v) ∧
     (∀ v, scol (serializeFrame f) = Some v ↔ col f = JsValue v)) ∧
  length table = size (list_to_set (ident <$> frs) : gset positive) ∧
  (∀ fr st, indexForFrame st !! ident fr = None →
     getIndexForFrame fr st =
       (length (frames st),
        {| frames := frames st ++ [serializeFrame fr];
           indexForFrame := <[ ident fr := length (frames st) ]> (indexForFrame st) |})) ∧
  (∀ fr st index, indexForFrame st !! ident fr = Some index →
     getIndexForFrame fr st = (index, st)).
Proof.
  intros Hcons. cbv zeta.
  destruct (getIndexForFrames_run (heapOf frs) frs emptyInterner
              (internerInv_empty _) (heapOf_consistent frs Hcons))
    as ((Hcontent & Hinj & Hsize) & _ & Hdom & Hlen & Hall).
  split; [exact Hlen|]. split; [|split; [|split; [|split]]];
    [| | |by intros fr st H; unfold getIndexForFrame; rewrite H
         |by intros fr st index H; unfold getIndexForFrame; rewrite H].
  - intros i j f g m n Hf Hg Hm Hn.
    pose proof (Hall _ _ _ Hf Hm) as Hfm. pose proof (Hall _ _ _ Hg Hn) as Hgn.
    split.
    + intros <-. by eapply Hinj.
    + intros Hid. rewrite Hid in Hfm. congruence.
  - intros i f m Hf Hm. split; [|apply serializeFrame_fields].
    rewrite <- (heapOf_consistent frs Hcons f) by (by eapply list_elem_of_lookup_2).
    apply Hcontent. by eapply Hall.
  - rewrite <- Hsize, <- size_dom, Hdom. f_equal.
    change (indexForFrame emptyInterner) with (∅ : gmap positive nat).
    rewrite dom_empty_L. set_solver.
Qed.

Lemma getIndexForFrame_interning_witness :
  let f1 := mkFrame 1 "f" (JsValue "a.js") JsNull JsUndefined in
  let f2 := mkFrame 2 "f" (JsValue "a.js") JsNull JsUndefined in
  (getIndexForFrames [f1; f2; f1] emptyInterner).1 = [0; 1; 0]%nat ∧
  (0%nat = 1%nat ↔ ident f1 = ident f2) ∧
  frames (getIndexForFrames [f1; f2; f1] emptyInterner).2 !! 1%nat =
    Some {| sname := "f"; sfile := Some "a.js"; sline := None; scol := None |}.
Proof.
  intros f1 f2.
  assert (Hcons : ∀ f g, f ∈ [f1; f2; f1] → g ∈ [f1; f2; f1] →
                         ident f = ident g → f = g).
  { intros f g Hf Hg Hid.
    repeat (apply elem_of_cons in Hf as [->|Hf]);
      try (by apply elem_of_nil in Hf);
      repeat (apply elem_of_cons in Hg as [->|Hg]);
      try (by apply elem_of_nil in Hg);
      try reflexivity; discriminate Hid. }
  destruct (getIndexForFrame_interning [f1; f2; f1] Hcons)
    as (_ & Hidx & Htab & _).
  split; [reflexivity|]. split.
  - apply (Hidx 0 1 f1 f2 0 1)%nat; reflexivity.
  - apply (Htab 1 f2 1)%nat; reflexivity.
Defined.

(** ** Frame compactor *)

(** The order of [firstReferences]: of two of its elements, the first
    occurrence of the earlier one precedes every occurrence of the later. *)
Lemma firstReferences_order (l : list nat) (i j f g : nat) :
  firstReferences l !! i = Some f → firstReferences l !! j = Some g →
  (i < j)%nat →
  ∃ p, l !! p = Some f ∧ ∀ q, l !! q = Some g → (p < q)%nat.
Proof.
  revert i j f g. induction l as [|x l IH] using rev_ind; intros i j f g.
  - simpl. by rewrite lookup_nil.
  - rewrite firstReferences_snoc.
    destruct (decide (x ∈ l)) as [Hx|Hx].
    + intros Hf Hg Hij. destruct (IH _ _ _ _ Hf Hg Hij) as (p & Hp & Hq).
      exists p. split; [by apply lookup_app_l_Some|].
      intros q. rewrite lookup_snoc_Some. intros [[_ Hq']|[-> _]].
      * by apply Hq.
      * by eapply lookup_lt_Some.
    + rewrite !lookup_snoc_Some.
      intros [[_ Hf]|[-> <-]] [[Hj Hg]|[-> <-]] Hij; try lia.
      * destruct (IH _ _ _ _ Hf Hg Hij) as (p & Hp & Hq).
        exists p. split; [by apply lookup_app_l_Some|].
        intros q. rewrite lookup_snoc_Some. intros [[_ Hq']|[-> <-]].
        -- by apply Hq.
        -- exfalso. apply Hx. rewrite <- elem_of_firstReferences.
           by eapply list_elem_of_lookup_2.
      * assert (Hfl : f ∈ l).
        { rewrite <- elem_of_firstReferences. by eapply list_elem_of_lookup_2. }
        apply list_elem_of_lookup_1 in Hfl as [p Hp].
        exists p. split; [by apply lookup_app_l_Some|].
        intros q. rewrite lookup_snoc_Some. intros [[_ Hq']|[-> _]].
        -- exfalso. apply Hx. by eapply list_elem_of_lookup_2.
        -- by eapply lookup_lt_Some.
Qed.

(** Renumbering the elements by their rank among the first references makes
    the first references 0, 1, 2, ... *)
Lemma firstReferences_remap (rank : nat → nat) (l : list nat) :
  (∀ x, x ∈ l → firstReferences l !! rank x = Some x) →
  firstReferences (rank <$> l) = seq 0 (length (firstReferences l)).
Proof.
  induction l as [|x l IH] using rev_ind; intros Hrank; [done|].
  assert (Hl : ∀ y, y ∈ l → firstReferences l !! rank y = Some y).
  { intros y Hy. specialize (Hrank y). rewrite elem_of_app in Hrank.
    specialize (Hrank (or_introl Hy)). rewrite firstReferences_snoc in Hrank.
    destruct (decide (x ∈ l)); [done|].
    apply lookup_snoc_Some in Hrank as [[_ ?]|[_ ->]]; done. }
  specialize (IH Hl).
  assert (Hx : firstReferences (l ++ [x]) !! rank x = Some x).
  { apply Hrank. apply elem_of_app; right. by apply list_elem_of_singleton. }
  rewrite fmap_app. simpl. rewrite !firstReferences_snoc in *.
  rewrite IH. destruct (decide (x ∈ l)) as [Hin|Hnin].
  - rewrite decide_True; [done|].
    rewrite <- elem_of_firstReferences, IH, elem_of_seq.
    apply lookup_lt_Some in Hx. lia.
  - apply lookup_snoc_Some in Hx as [[_ Hx]|[Hx _]].
    { exfalso. apply Hnin. rewrite <- elem_of_firstReferences.
      by eapply list_elem_of_lookup_2. }
    rewrite decide_False.
    + rewrite length_app. cbn [length]. rewrite Nat.add_1_r, seq_S.
      by rewrite Hx.
    + rewrite <- elem_of_firstReferences, IH, elem_of_seq. lia.
Qed.

Lemma nth_seq_fmap {B : Type} (d : B) (l : list B) :
  (λ j, nth j l d) <$> seq 0 (length l) = l.
Proof.
  apply list_eq. intros i. rewrite list_lookup_fmap.
  destruct (decide (i < length l)%nat) as [Hlt|Hge].
  - rewrite lookup_seq_lt by done. simpl.
    destruct (lookup_lt_is_Some_2 l i Hlt) as [x Hx].
    by rewrite Hx, (nth_lookup_Some _ _ _ _ Hx).
  - rewrite lookup_seq_ge by lia. simpl. symmetry. apply lookup_ge_None. lia.
Qed.

Section CompactorProperties.

Context {A : Type} (undefined : A).

Lemma compressLoop_snoc (table : list A) (evs : list Event) (e : Event) :
  compressLoop undefined table (evs ++ [e]) =
  compressStep undefined table (compressLoop undefined table evs) e.
Proof. unfold compressLoop. by rewrite fold_left_app. Qed.

(** What the loop computes: [newFrames] lists the entries of the table at
    the first references of the events, and [oldToNew] sends a referenced
    index to its position among the first references. *)
Lemma compressLoop_spec (table : list A) (evs : list Event) :
  let refs := firstReferences (frame <$> evs) in
  (compressLoop undefined table evs).2 = (λ f, nth f table undefined) <$> refs ∧
  ∀ f i, (compressLoop undefined table evs).1 !! f = Some i ↔ refs !! i = Some f.
Proof.
  induction evs as [|e evs IH] using rev_ind; cbv zeta.
  - split; [done|]. intros f i. unfold compressLoop; simpl.
    by rewrite lookup_empty, lookup_nil.
  - destruct IH as [IHn IHm]. rewrite compressLoop_snoc, fmap_app. simpl.
    rewrite firstReferences_snoc.
    destruct (compressLoop undefined table evs) as [oldToNew newFrames].
    simpl in IHn, IHm. unfold compressStep.
    destruct (oldToNew !! frame e) as [i0|] eqn:Hlook.
    + apply IHm in Hlook as Hi0.
      rewrite decide_True; [done|].
      apply elem_of_firstReferences. by eapply list_elem_of_lookup_2.
    + assert (Hnin : frame e ∉ frame <$> evs).
      { rewrite <- elem_of_firstReferences. intros Hin.
        apply list_elem_of_lookup_1 in Hin as [i Hi].
        apply IHm in Hi. congruence. }
      rewrite decide_False by done. simpl. split.
      * by rewrite fmap_app, IHn.
      * intros f i. rewrite lookup_insert, lookup_snoc_Some.
        rewrite IHn, length_fmap.
        destruct (decide (frame e = f)) as [<-|Hne]; simpl.
        -- split.
           ++ intros [= <-]. by right.
           ++ intros [[_ Hi]|[-> _]]; [|done].
              exfalso. apply Hnin. rewrite <- elem_of_firstReferences.
              by eapply list_elem_of_lookup_2.
        -- rewrite IHm. split; [intros Hi; left|intros [[_ Hi]|[_ ?]]; done].
           split; [by eapply lookup_lt_Some | done].
Qed.

Lemma compressFramesAndRemap_eq (table : list A) (evs : list Event) :
  compressFramesAndRemap undefined table evs =
  ((compressLoop undefined table evs).2,
   remapEvent (compressLoop undefined table evs).1 <$> evs).
Proof.
  unfold compressFramesAndRemap.
  by destruct (compressLoop undefined table evs).
Qed.

(** The lookup in [remapEvent] never misses. *)
Lemma oldToNew_total (table : list A) (evs : list Event) (e : Event) :
  e ∈ evs →
  ∃ i, (compressLoop undefined table evs).1 !! frame e = Some i ∧
       firstReferences (frame <$> evs) !! i = Some (frame e).
Proof.
  intros He. destruct (compressLoop_spec table evs) as [_ Hm].
  assert (Hin : frame e ∈ firstReferences (frame <$> evs)).
  { apply elem_of_firstReferences. by apply list_elem_of_fmap_2. }
  apply list_elem_of_lookup_1 in Hin as [i Hi]. exists i. split; [|done].
  by apply Hm.
Qed.

Lemma compress_newFrames_length (table : list A) (evs : list Event) :
  length (compressLoop undefined table evs).2 =
  length (firstReferences (frame <$> evs)).
Proof.
  destruct (compressLoop_spec table evs) as [-> _]. by rewrite length_fmap.
Qed.

Lemma remapEvent_frame (table : list A) (evs : list Event) (e : Event) :
  e ∈ evs →
  firstReferences (frame <$> evs)
    !! frame (remapEvent (compressLoop undefined table evs).1 e) =
  Some (frame e).
Proof.
  intros He. destruct (oldToNew_total table evs e He) as (i & Hi & Hr).
  unfold remapEvent; simpl. by rewrite Hi.
Qed.

(** C6: for every frame table and every event stream over it (every
    event's frame is an index of the table), the new table lists the entries
    of the old table at the distinct frame indices of the events, in order
    of first reference; every entry of the new table is an entry of the old
    table that an event references; the new table is no longer than the old
    one; every rewritten event's frame is less than the new table's length;
    and every entry of the new table is referenced by a rewritten event.
    The order, the bound on the rewritten frames and the absence of
    unreferenced entries do not depend on the events being over the
    table. *)
Theorem compress_sound (table : list A) (evs : list Event) :
  let newFrames := (compressFramesAndRemap undefined table evs).1 in
  let remapped := (compressFramesAndRemap undefined table evs).2 in
  let refs := firstReferences (frame <$> evs) in
  newFrames = (λ f, nth f table undefined) <$> refs ∧
  NoDup refs ∧
  (∀ f, f ∈ refs ↔ ∃ e, e ∈ evs ∧ frame e = f) ∧
  (∀ i j f g, refs !! i = Some f → refs !! j = Some g → (i < j)%nat →
     ∃ p, (frame <$> evs) !! p = Some f ∧
          ∀ q, (frame <$> evs) !! q = Some g → (p < q)%nat) ∧
  Forall (λ e, (frame e < length newFrames)%nat) remapped ∧
  (∀ j, (j < length newFrames)%nat → ∃ e, e ∈ remapped ∧ frame e = j) ∧
  (Forall (λ e, (frame e < length table)%nat) evs →
   (length newFrames ≤ length table)%nat ∧
   Some <$> newFrames = (λ f, table !! f) <$> refs ∧
   ∀ j x, newFrames !! j = Some x →
     ∃ e, e ∈ evs ∧ table !! frame e = Some x).
Proof.
  cbv zeta. rewrite compressFramesAndRemap_eq. cbn [fst snd].
  destruct (compressLoop_spec table evs) as [Hn Hm].
  pose proof (NoDup_firstReferences (frame <$> evs)) as Hnd.
  split; [exact Hn|]. split; [exact Hnd|]. split; [|split; [|split; [|split]]].
  - intros f. rewrite elem_of_firstReferences, list_elem_of_fmap. naive_solver.
  - intros i j f g. apply firstReferences_order.
  - rewrite Forall_fmap. apply Forall_forall. intros e He. simpl.
    rewrite compress_newFrames_length.
    eapply lookup_lt_Some. by apply remapEvent_frame.
  - intros j Hj. rewrite compress_newFrames_length in Hj.
    destruct (lookup_lt_is_Some_2 _ _ Hj) as [f Hf].
    assert (Hin : f ∈ frame <$> evs).
    { rewrite <- elem_of_firstReferences. by eapply list_elem_of_lookup_2. }
    apply list_elem_of_fmap in Hin as (e & -> & He).
    exists (remapEvent (compressLoop undefined table evs).1 e).
    split; [by apply list_elem_of_fmap_2|].
    eapply NoDup_lookup; [exact Hnd | by apply remapEvent_frame | exact Hf].
  - intros Hvalid. rewrite Forall_forall in Hvalid.
    assert (Hrefs : ∀ f, f ∈ firstReferences (frame <$> evs) →
                         ∃ e, e ∈ evs ∧ frame e = f ∧ (f < length table)%nat).
    { intros f. rewrite elem_of_firstReferences, list_elem_of_fmap.
      intros (e & -> & He). exists e. split; [done|]. split; [done|].
      by apply Hvalid. }
    split; [|split].
    + rewrite compress_newFrames_length.
      rewrite <- (length_seq (length table) 0).
      apply submseteq_length, NoDup_submseteq; [exact Hnd|].
      intros f Hf. rewrite elem_of_seq.
      destruct (Hrefs f Hf) as (_ & _ & _ & Hlt). lia.
    + rewrite Hn, <- list_fmap_compose. apply list_fmap_ext.
      intros i f Hf. simpl.
      destruct (Hrefs f) as (_ & _ & _ & Hlt);
        [by eapply list_elem_of_lookup_2|].
      destruct (lookup_lt_is_Some_2 table f Hlt) as [x Hx].
      by rewrite Hx, (nth_lookup_Some _ _ _ _ Hx).
    + intros j x. rewrite Hn, list_lookup_fmap.
      destruct (firstReferences (frame <$> evs) !! j) as [f|] eqn:Hf; [|done].
      simpl. intros [= <-].
      destruct (Hrefs f) as (e & He & <- & Hlt);
        [by eapply list_elem_of_lookup_2|].
      exists e. split; [done|].
      destruct (lookup_lt_is_Some_2 table (frame e) Hlt) as [x Hx].
      by rewrite Hx, (nth_lookup_Some _ _ _ _ Hx).
Qed.

(** C7: compacting the output of the compactor gives back the same frame
    table and the same events. *)
Theorem compress_idempotent (table : list A) (evs : list Event) :
  let newFrames := (compressFramesAndRemap undefined table evs).1 in
  let remapped := (compressFramesAndRemap undefined table evs).2 in
  compressFramesAndRemap undefined newFrames remapped = (newFrames, remapped).
Proof.
  cbv zeta. rewrite (compressFramesAndRemap_eq table evs). cbn [fst snd].
  set (oldToNew := (compressLoop undefined table evs).1).
  set (newFrames := (compressLoop undefined table evs).2).
  set (remapped := remapEvent oldToNew <$> evs).
  rewrite compressFramesAndRemap_eq.
  destruct (compressLoop_spec newFrames remapped) as [Hn2 Hm2].
  assert (Hrefs : firstReferences (frame <$> remapped) =
                  seq 0 (length newFrames)).
  { unfold remapped, newFrames. rewrite compress_newFrames_length.
    rewrite <- list_fmap_compose.
    change (frame ∘ remapEvent oldToNew)
      with ((λ f, default 0%nat (oldToNew !! f)) ∘ frame).
    rewrite list_fmap_compose. apply firstReferences_remap.
    intros x Hx. apply list_elem_of_fmap in Hx as (e & -> & He).
    by apply (remapEvent_frame table evs e). }
  rewrite Hrefs in Hn2, Hm2. f_equal.
  - rewrite Hn2. apply nth_seq_fmap.
  - transitivity (id <$> remapped); [|apply list_fmap_id]. apply list_fmap_ext.
    intros i e' He'. simpl.
    assert (Hlt : (frame e' < length newFrames)%nat).
    { unfold remapped in He'. apply list_lookup_fmap_Some in He' as (e & -> & He).
      unfold newFrames. rewrite compress_newFrames_length.
      eapply lookup_lt_Some. apply (remapEvent_frame table evs e).
      by eapply list_elem_of_lookup_2. }
    assert (Hself : (compressLoop undefined newFrames remapped).1 !! frame e' =
                    Some (frame e')).
    { apply Hm2. by apply lookup_seq_lt. }
    unfold remapEvent. rewrite Hself. by destruct e'.
Qed.

(** C10: the compactor keeps the number and the order of the events and the
    [type] and [at] of each; the rewritten [frame] of an event points, in the
    new table, at the entry its old [frame] pointed at in the old table.
    The function is parametric in the type of the entries: it can only pass
    on the entries it reads, it cannot copy or rebuild them. *)
Theorem compress_preserves (table : list A) (evs : list Event) :
  let newFrames := (compressFramesAndRemap undefined table evs).1 in
  let remapped := (compressFramesAndRemap undefined table evs).2 in
  length remapped = length evs ∧
  type <$> remapped = type <$> evs ∧
  at_ <$> remapped = at_ <$> evs ∧
  (∀ i e, evs !! i = Some e →
     ∃ e', remapped !! i = Some e' ∧ type e' = type e ∧ at_ e' = at_ e ∧
           newFrames !! frame e' = Some (nth (frame e) table undefined)) ∧
  (∀ i e e', evs !! i = Some e → remapped !! i = Some e' →
     (frame e < length table)%nat →
     newFrames !! frame e' = table !! frame e).
Proof.
  cbv zeta. rewrite compressFramesAndRemap_eq. cbn [fst snd].
  destruct (compressLoop_spec table evs) as [Hn _].
  assert (Hpoint : ∀ i e, evs !! i = Some e →
    (compressLoop undefined table evs).2
      !! frame (remapEvent (compressLoop undefined table evs).1 e) =
    Some (nth (frame e) table undefined)).
  { intros i e He. rewrite Hn, list_lookup_fmap.
    rewrite (remapEvent_frame table evs e) by (by eapply list_elem_of_lookup_2).
    done. }
  split; [by rewrite length_fmap|].
  split; [by rewrite <- list_fmap_compose|].
  split; [by rewrite <- list_fmap_compose|]. split.
  - intros i e He. exists (remapEvent (compressLoop undefined table evs).1 e).
    rewrite list_lookup_fmap, He. repeat split; try done. by eapply Hpoint.
  - intros i e e' He. rewrite list_lookup_fmap, He. intros [= <-] Hlt.
    rewrite (Hpoint i e He).
    destruct (lookup_lt_is_Some_2 table (frame e) Hlt) as [x Hx].
    by rewrite Hx, (nth_lookup_Some _ _ _ _ Hx).
Qed.

End CompactorProperties.

Lemma compress_sound_witness :
  (length (compressFramesAndRemap None scenarioATable
             (filterEventsWithContext scenarioA 200 600)).1
   ≤ length scenarioATable)%nat.
Proof.
  destruct (compress_sound None scenarioATable
              (filterEventsWithContext scenarioA 200 600))
    as (_ & _ & _ & _ & _ & _ & Hlen).
  apply Hlen. apply Forall_forall. intros e He.
  repeat (apply elem_of_cons in He as [->|He]; [vm_compute; lia|]).
  by apply elem_of_nil in He.
Defined.

Lemma compress_preserves_witness :
  (compressFramesAndRemap None scenarioATable
     (filterEventsWithContext scenarioA 200 600)).1 !! 0%nat =
  scenarioATable !! 2%nat.
Proof.
  destruct (compress_preserves None scenarioATable
              (filterEventsWithContext scenarioA 200 600))
    as (_ & _ & _ & _ & Hsame).
  apply (Hsame 0%nat (mkEvent OpenFrame 2 200) (mkEvent OpenFrame 0 200));
    [vm_compute; reflexivity | vm_compute; reflexivity | vm_compute; lia].
Defined.

(* ===================================================================== *)
(** * Part III: further properties of the export code                     *)
(* ===================================================================== *)

(** ** The encoder *)

Lemma invoke_spec (st : Encoder) (c : Call) :
  invoke st c =
  {| interner := (getIndexForFrame (callFrame c) (interner st)).2;
     events := events st ++
       [eventOfCall c (getIndexForFrame (callFrame c) (interner st)).1] |}.
Proof.
  destruct c as [fr v|fr v]; simpl; unfold openFrame, closeFrame;
    by destruct (getIndexForFrame fr (interner st)).
Qed.

Lemma fold_invoke_spec (profile : list Call) (st : Encoder) :
  let run := getIndexForFrames (callFrame <$> profile) (interner st) in
  fold_left invoke profile st =
  {| interner := run.2;
     events := events st ++ zip_with eventOfCall profile run.1 |}.
Proof.
  revert st. induction profile as [|c profile IH]; intros st; cbv zeta.
  - simpl. rewrite app_nil_r. by destruct st.
  - simpl fold_left. rewrite IH. cbv zeta. rewrite invoke_spec. cbn [interner events].
    rewrite fmap_cons, getIndexForFrames_cons. cbn [fst snd zip_with].
    by rewrite <- app_assoc.
Qed.

(** The encoder in terms of the interner: the frame table is the one a run
    of [getIndexForFrame] over the calls builds, and the i-th event is the
    event of the i-th call with the index that run returned for it. *)
Lemma forEachCall_spec (profile : list Call) :
  let run := getIndexForFrames (callFrame <$> profile) emptyInterner in
  interner (forEachCall profile) = run.2 ∧
  events (forEachCall profile) = zip_with eventOfCall profile run.1.
Proof.
  cbv zeta. unfold forEachCall.
  change (fold_left _ profile ?st) with (fold_left invoke profile st).
  rewrite fold_invoke_spec. done.
Qed.

(** X1: the encoder emits one event per callback invocation, in order, with
    the type of the callback and, as its time, what [parseInt] reads from
    the string of the value (the integer part of a value printed in
    positional notation, the leading digit of one printed in exponent
    notation), and every event's frame is the index of the row of the frame
    table that holds the record of the call's frame. *)
Theorem forEachCall_integrity (profile : list Call) :
  (∀ c d, c ∈ profile → d ∈ profile →
     ident (callFrame c) = ident (callFrame d) → callFrame c = callFrame d) →
  let table := frames (interner (forEachCall profile)) in
  let evs := events (forEachCall profile) in
  length evs = length profile ∧
  ∀ i c, profile !! i = Some c →
    ∃ e, evs !! i = Some e ∧
         type e = callType c ∧
         at_ e = parseIntOfToString (callValue c) ∧
         table !! frame e = Some (serializeFrame (callFrame c)).
Proof.
  intros Hcons. cbv zeta.
  destruct (forEachCall_spec profile) as [-> ->].
  assert (Hcons' : ∀ f g, f ∈ callFrame <$> profile → g ∈ callFrame <$> profile →
                          ident f = ident g → f = g).
  { intros f g Hf Hg. apply list_elem_of_fmap in Hf as (c & -> & Hc).
    apply list_elem_of_fmap in Hg as (d & -> & Hd). by apply Hcons. }
  destruct (getIndexForFrames_run (heapOf (callFrame <$> profile))
              (callFrame <$> profile) emptyInterner
              (internerInv_empty _) (heapOf_consistent _ Hcons'))
    as ((Hcontent & _ & _) & _ & _ & Hlen & Hall).
  rewrite length_fmap in Hlen. split.
  - rewrite length_zip_with. lia.
  - intros i c Hc.
    destruct (lookup_lt_is_Some_2
                (getIndexForFrames (callFrame <$> profile) emptyInterner).1 i)
      as [m Hm]; [rewrite Hlen; by eapply lookup_lt_Some|].
    exists (eventOfCall c m). split; [|split; [done|split; [done|]]].
    + apply lookup_zip_with_Some. eauto.
    + simpl.
      rewrite <- (heapOf_consistent _ Hcons' (callFrame c))
        by (apply list_elem_of_fmap_2; by eapply list_elem_of_lookup_2).
      apply Hcontent. apply (Hall i); [|done].
      by rewrite list_lookup_fmap, Hc.
Qed.

Lemma forEachCall_integrity_witness :
  ∃ e, events (forEachCall scenarioAProfile) !! 6%nat = Some e ∧
       type e = OpenFrame ∧ at_ e = 600 ∧
       frames (interner (forEachCall scenarioAProfile)) !! frame e =
         Some (serializeFrame (plainFrame 5 "D")).
Proof.
  assert (Hcons : ∀ c d, c ∈ scenarioAProfile → d ∈ scenarioAProfile →
     ident (callFrame c) = ident (callFrame d) → callFrame c = callFrame d).
  { intros c d Hc Hd Hid. unfold scenarioAProfile in Hc, Hd.
    repeat (apply elem_of_cons in Hc as [->|Hc]);
      try (by apply elem_of_nil in Hc);
      repeat (apply elem_of_cons in Hd as [->|Hd]);
      try (by apply elem_of_nil in Hd);
      try reflexivity; discriminate Hid. }
  destruct (forEachCall_integrity scenarioAProfile Hcons) as [_ H].
  apply (H 6%nat (CallOpen (plainFrame 5 "D") 600)). reflexivity.
Defined.

(** ** The interval filter: edges *)

Lemma syntheticEvents_frame (l : list Event) (s t : Q) (e : Event) :
  e ∈ syntheticEvents l s t → frame e ∈ frame <$> selectedEvents l s t.
Proof.
  unfold syntheticEvents. rewrite secondPass_elem_of.
  intros (k & st & Hin & He). apply syntheticFor_frame in He as [-> _].
  destruct (firstPass_spec l s t) as (_ & _ & Hk & _).
  rewrite <- elem_of_firstReferences, <- Hk. unfold mapKeys.
  apply list_elem_of_fmap. by exists (k, st).
Qed.

Lemma syntheticEvents_nil_iff (l : list Event) (s t : Q) :
  syntheticEvents l s t = [] ↔
  ∀ f, (0 < countEvents OpenFrame f (selectedEvents l s t))%nat ↔
       (0 < countEvents CloseFrame f (selectedEvents l s t))%nat.
Proof.
  split.
  - intros Hnil f. destruct (countEvents_synthetic l s t f) as [HC HO].
    cbv zeta in *. rewrite Hnil in HC, HO.
    assert (Hz : ∀ ty, countEvents ty f [] = 0%nat) by done.
    rewrite Hz in HC, HO.
    repeat case_bool_decide; simpl in *; lia.
  - intros Hbal. destruct (syntheticEvents l s t) as [|e syn] eqn:Hsyn; [done|].
    exfalso.
    assert (Hpos : (0 < countEvents (type e) (frame e) (syntheticEvents l s t))%nat).
    { apply countEvents_pos. exists e. rewrite Hsyn.
      split; [apply elem_of_cons; by left | done]. }
    destruct (countEvents_synthetic l s t (frame e)) as [HC HO].
    cbv zeta in *. specialize (Hbal (frame e)).
    destruct (type e); [rewrite HO in Hpos | rewrite HC in Hpos];
      repeat case_bool_decide; simpl in *; lia.
Qed.

(** X2: the filter returns no event exactly when no input event lies in the
    window; nothing is synthesized for a window without events. *)
Theorem filter_empty_iff (events : list Event) (intervalStart intervalEnd : Q) :
  filterEventsWithContext events intervalStart intervalEnd = [] ↔
  Forall (λ e, inInterval intervalStart intervalEnd e = false) events.
Proof.
  assert (Hsel : selectedEvents events intervalStart intervalEnd = [] ↔
                 Forall (λ e, inInterval intervalStart intervalEnd e = false) events).
  { rewrite Forall_forall. split.
    - intros Hnil e He. apply not_true_is_false. intros Hin.
      assert (Hm : e ∈ selectedEvents events intervalStart intervalEnd)
        by (by apply selectedEvents_elem_of).
      rewrite Hnil in Hm. by apply elem_of_nil in Hm.
    - intros Hall.
      destruct (selectedEvents events intervalStart intervalEnd) as [|e sel] eqn:Hs;
        [done|].
      assert (Hm : e ∈ selectedEvents events intervalStart intervalEnd)
        by (rewrite Hs; apply elem_of_cons; by left).
      apply selectedEvents_elem_of in Hm as [Hin He].
      rewrite (Hall e He) in Hin. done. }
  rewrite <- Hsel. split.
  - intros Hnil.
    pose proof (filterEventsWithContext_perm events intervalStart intervalEnd) as Hp.
    rewrite Hnil in Hp. symmetry in Hp. apply Permutation_nil_r in Hp.
    by apply app_eq_nil in Hp as [? _].
  - intros Hnil.
    assert (Hsyn : syntheticEvents events intervalStart intervalEnd = []).
    { apply syntheticEvents_nil_iff. intros f. rewrite Hnil.
      unfold countEvents. rewrite filter_nil. simpl. lia. }
    pose proof (filterEventsWithContext_perm events intervalStart intervalEnd) as Hp.
    rewrite Hnil, Hsyn in Hp. by apply Permutation_nil_r in Hp.
Qed.

Lemma filterEventsWithContext_frame (l : list Event) (s t : Q) (e : Event) :
  e ∈ filterEventsWithContext l s t →
  ∃ e', e' ∈ l ∧ inInterval s t e' = true ∧ frame e' = frame e.
Proof.
  intros He. apply filterEventsWithContext_elem_of in He as [He|He].
  - apply selectedEvents_elem_of in He as [Hin He]. eauto.
  - apply syntheticEvents_frame, list_elem_of_fmap in He as (e' & Hf & He').
    apply selectedEvents_elem_of in He' as [Hin He']. eauto.
Qed.

(** X3: the filter never invents a frame: the frame of every output event,
    synthetic ones included, is the frame of an input event inside the
    window. *)
Theorem filter_frames (events : list Event) (intervalStart intervalEnd : Q)
    (e : Event) :
  e ∈ filterEventsWithContext events intervalStart intervalEnd →
  ∃ e', e' ∈ events ∧ inInterval intervalStart intervalEnd e' = true ∧
        frame e' = frame e.
Proof. apply filterEventsWithContext_frame. Qed.

Lemma filter_frames_witness :
  ∃ e', e' ∈ scenarioA ∧ inInterval 200 600 e' = true ∧ frame e' = 4%nat.
Proof.
  apply (filter_frames scenarioA 200 600 (mkEvent CloseFrame 4 600)).
  do 5 (apply elem_of_cons; right). apply elem_of_cons; by left.
Defined.

(** A stream that lies in the window, is sorted, and in which a frame has an
    open exactly when it has a close, passes the filter unchanged. *)
Lemma filter_fixpoint (l : list Event) (s t : Q) :
  Forall (λ e, inInterval s t e = true) l →
  StronglySorted leAt l →
  (∀ f, (0 < countEvents OpenFrame f l)%nat ↔ (0 < countEvents CloseFrame f l)%nat) →
  filterEventsWithContext l s t = l.
Proof.
  intros Hall Hsorted Hbal.
  assert (Hsel : selectedEvents l s t = l).
  { unfold selectedEvents. clear -Hall. induction Hall as [|e l He _ IH]; [done|].
    by rewrite filter_cons_True, IH. }
  assert (Hsyn : syntheticEvents l s t = []).
  { apply syntheticEvents_nil_iff. by rewrite Hsel. }
  unfold filterEventsWithContext.
  change (secondPass s t (frameStates (firstPass l s t)))
    with (syntheticEvents l s t).
  destruct (firstPass_spec l s t) as (-> & _).
  rewrite Hsyn, Hsel, app_nil_r. by apply sortByAt_idem.
Qed.

(** X4: on a window with integer bounds below 1e21 in absolute value the
    filter is idempotent: filtering its output again with the same window
    changes nothing.  From 1e21 on a bound is printed in exponent notation
    and the synthetic events are placed at its leading digit, outside the
    window; filtering again can then reorder them. *)
Theorem filter_idempotent (events : list Event) (intervalStart intervalEnd : Z) :
  let s := inject_Z intervalStart in
  let t := inject_Z intervalEnd in
  (- 10 ^ 21 < intervalStart → intervalEnd < 10 ^ 21 →
   filterEventsWithContext (filterEventsWithContext events s t) s t =
   filterEventsWithContext events s t) ∧
  (let far := [ mkEvent CloseFrame 1 (10 ^ 21 + 700000);
                mkEvent CloseFrame 2 (10 ^ 21 + 400000) ] in
   let s' := inject_Z (10 ^ 21) in
   let t' := inject_Z (2 * 10 ^ 21) in
   filterEventsWithContext (filterEventsWithContext far s' t') s' t' ≠
   filterEventsWithContext far s' t').
Proof.
  cbv zeta. split.
  - intros Hs Ht. apply filter_fixpoint.
    + apply Forall_forall. intros e He. apply inInterval_integer.
      destruct (filterEventsWithContext_frame events _ _ e He)
        as (e' & _ & Hin' & _).
      apply inInterval_integer in Hin'.
      apply (filter_in_integer_window events); [lia|lia|lia|done].
    + apply filterEventsWithContext_sorted.
    + intros f. rewrite !countEvents_output.
      destruct (countEvents_synthetic events (inject_Z intervalStart)
                  (inject_Z intervalEnd) f) as [-> ->].
      repeat case_bool_decide; simpl; lia.
  - intros H. vm_compute in H. discriminate H.
Qed.

Lemma filter_idempotent_witness :
  filterEventsWithContext (filterEventsWithContext scenarioA 200 600) 200 600 =
  filterEventsWithContext scenarioA 200 600.
Proof.
  destruct (filter_idempotent scenarioA 200 600) as [H _].
  apply H; lia.
Defined.

(** X5: a window that contains every event of a sorted stream in which every
    frame that opens also closes, and conversely, leaves the stream as it is:
    exporting the whole of a complete profile synthesizes and reorders
    nothing. *)
Theorem filter_whole_stream (events : list Event) (intervalStart intervalEnd : Q) :
  Forall (λ e, (intervalStart <= inject_Z (at_ e))%Q ∧
               (inject_Z (at_ e) <= intervalEnd)%Q) events →
  StronglySorted leAt events →
  (∀ f, (0 < countEvents OpenFrame f events)%nat ↔
        (0 < countEvents CloseFrame f events)%nat) →
  filterEventsWithContext events intervalStart intervalEnd = events.
Proof.
  intros Hall Hsorted Hbal. apply filter_fixpoint; [|done|done].
  eapply Forall_impl; [exact Hall|]. intros e He. by apply inInterval_spec.
Qed.

Lemma filter_whole_stream_witness :
  filterEventsWithContext scenarioA 0 900 = scenarioA.
Proof.
  apply filter_whole_stream.
  - repeat (apply Forall_cons; split; [split; by vm_compute|]). apply Forall_nil_2.
  - unfold scenarioA, leAt.
    repeat (apply SSorted_cons;
            [|repeat (apply Forall_cons; split; [simpl; lia|]); apply Forall_nil_2]).
    apply SSorted_nil.
  - intros f. do 5 (destruct f as [|f]; [vm_compute; lia|]). vm_compute. lia.
Defined.

(** ** The export with a compacted frame table *)

(** Every index a run of the interner returns is a row of its table. *)
Lemma getIndexForFrames_bounded (frs : list Frame) (st : Interner) :
  (∀ id i, indexForFrame st !! id = Some i → (i < length (frames st))%nat) →
  let run := getIndexForFrames frs st in
  (∀ id i, indexForFrame run.2 !! id = Some i → (i < length (frames run.2))%nat) ∧
  (length (frames st) ≤ length (frames run.2))%nat ∧
  Forall (λ i, (i < length (frames run.2))%nat) run.1.
Proof.
  revert st. induction frs as [|fr frs IH]; intros st Hst; cbv zeta.
  - simpl. split; [done|]. split; [done|]. apply Forall_nil_2.
  - rewrite getIndexForFrames_cons. cbn [fst snd].
    assert (Hstep :
      (∀ id i, indexForFrame (getIndexForFrame fr st).2 !! id = Some i →
               (i < length (frames (getIndexForFrame fr st).2))%nat) ∧
      (length (frames st) ≤ length (frames (getIndexForFrame fr st).2))%nat ∧
      ((getIndexForFrame fr st).1 < length (frames (getIndexForFrame fr st).2))%nat).
    { unfold getIndexForFrame.
      destruct (indexForFrame st !! ident fr) as [index|] eqn:Hlook;
        cbn [fst snd frames indexForFrame].
      - split; [done|]. split; [done|]. by eapply Hst.
      - rewrite length_app. cbn [length]. split; [|lia].
        intros id i. rewrite lookup_insert.
        destruct (decide (ident fr = id)); simpl.
        + intros [= <-]. lia.
        + intros Hi. apply Hst in Hi. lia. }
    destruct Hstep as (Hst1 & Hle1 & Hidx).
    destruct (IH _ Hst1) as (Hst2 & Hle2 & Hall).
    split; [done|]. split; [lia|].
    apply Forall_cons. split; [lia | done].
Qed.

(** The encoder's events index its frame table. *)
Lemma forEachCall_valid (profile : list Call) :
  Forall (λ e, (frame e < length (frames (interner (forEachCall profile))))%nat)
    (events (forEachCall profile)).
Proof.
  destruct (forEachCall_spec profile) as [-> ->].
  destruct (getIndexForFrames_bounded (callFrame <$> profile) emptyInterner)
    as (_ & _ & Hall).
  { intros id i H. cbn [indexForFrame emptyInterner] in H.
    by rewrite lookup_empty in H. }
  cbv zeta in Hall. apply Forall_forall. intros e He.
  apply list_elem_of_lookup_1 in He as [i Hi].
  apply lookup_zip_with_Some in Hi as (c & m & -> & _ & Hm). simpl.
  rewrite Forall_forall in Hall. apply Hall. by eapply list_elem_of_lookup_2.
Qed.

(** So do the events the filter returns on them. *)
Lemma filter_valid (profile : list Call) (s t : Q) :
  Forall (λ e, (frame e < length (frames (interner (forEachCall profile))))%nat)
    (filterEventsWithContext (events (forEachCall profile)) s t).
Proof.
  apply Forall_forall. intros e He.
  destruct (filterEventsWithContext_frame _ _ _ _ He) as (e' & He' & _ & <-).
  pose proof (forEachCall_valid profile) as Hv. rewrite Forall_forall in Hv.
  by apply Hv.
Qed.

Section CompactorFacts.

Context {A : Type} (undefined : A).

Lemma remapEvent_sorted (oldToNew : gmap nat nat) (l : list Event) :
  StronglySorted leAt l → StronglySorted leAt (remapEvent oldToNew <$> l).
Proof.
  induction 1 as [|e l Hs IH Hall]; [constructor|].
  rewrite fmap_cons. constructor; [exact IH|].
  rewrite Forall_fmap. eapply Forall_impl; [exact Hall|]. done.
Qed.

(** The compactor on events that index the old table: rewritten frames are
    rows of the new table, every row is used, every row is an entry of the
    old table, and the new table is not longer. *)
Lemma compressLoop_valid (table : list A) (evs : list Event) :
  let oldToNew := (compressLoop undefined table evs).1 in
  let newFrames := (compressLoop undefined table evs).2 in
  Forall (λ e, (frame e < length newFrames)%nat) (remapEvent oldToNew <$> evs) ∧
  (∀ j, (j < length newFrames)%nat →
     ∃ e, e ∈ evs ∧ frame (remapEvent oldToNew e) = j) ∧
  (Forall (λ e, (frame e < length table)%nat) evs →
   (length newFrames ≤ length table)%nat ∧
   ∀ j x, newFrames !! j = Some x → x ∈ table).
Proof.
  cbv zeta. destruct (compressLoop_spec undefined table evs) as [Hn Hm].
  pose proof (NoDup_firstReferences (frame <$> evs)) as Hnd.
  split; [|split].
  - rewrite Forall_fmap. apply Forall_forall. intros e He. simpl.
    rewrite compress_newFrames_length.
    eapply lookup_lt_Some. by apply remapEvent_frame.
  - intros j Hj. rewrite compress_newFrames_length in Hj.
    destruct (lookup_lt_is_Some_2 _ _ Hj) as [f Hf].
    assert (Hin : f ∈ frame <$> evs).
    { rewrite <- elem_of_firstReferences. by eapply list_elem_of_lookup_2. }
    apply list_elem_of_fmap in Hin as (e & -> & He).
    exists e. split; [done|].
    eapply NoDup_lookup; [exact Hnd | by apply remapEvent_frame | exact Hf].
  - intros Hvalid. rewrite Forall_forall in Hvalid. split.
    + rewrite compress_newFrames_length.
      rewrite <- (length_seq (length table) 0).
      apply submseteq_length, NoDup_submseteq; [exact Hnd|].
      intros f. rewrite elem_of_firstReferences, list_elem_of_fmap.
      intros (e & -> & He). rewrite elem_of_seq.
      specialize (Hvalid e He). lia.
    + intros j x. rewrite Hn, list_lookup_fmap.
      destruct (firstReferences (frame <$> evs) !! j) as [f|] eqn:Hf; [|done].
      simpl. intros [= <-].
      assert (Hin : f ∈ frame <$> evs).
      { rewrite <- elem_of_firstReferences. by eapply list_elem_of_lookup_2. }
      apply list_elem_of_fmap in Hin as (e & -> & He).
      destruct (lookup_lt_is_Some_2 table (frame e) (Hvalid e He)) as [y Hy].
      rewrite (nth_lookup_Some _ _ _ _ Hy). by eapply list_elem_of_lookup_2.
Qed.

End CompactorFacts.

(** The document of the newer dialog in terms of the filter and the loop of
    the compactor. *)
Lemma newDialog_document (profile : list Call) (s t : Q) :
  let full := Some <$> frames (interner (forEachCall profile)) in
  let filtered := filterEventsWithContext (events (forEachCall profile)) s t in
  NewDialog.handleExportJson profile s t =
  NewDialog.Downloaded
    {| NewDialog.sharedFrames := (compressLoop None full filtered).2;
       NewDialog.profileStartValue :=
         match filtered !! 0%nat with Some first => at_ first | None => 0 end;
       NewDialog.profileEndValue :=
         match filtered !! (length filtered - 1)%nat with
         | Some lastEvent => at_ lastEvent | None => 0 end;
       NewDialog.profileEvents :=
         remapEvent (compressLoop None full filtered).1 <$> filtered |}.
Proof.
  cbv zeta. unfold NewDialog.handleExportJson.
  rewrite compressFramesAndRemap_eq. cbn [fst snd].
  rewrite sortByAt_idem
    by apply remapEvent_sorted, filterEventsWithContext_sorted.
  pose proof (filter_at_bound _ s t (forEachCall_at_bound profile)) as Hb.
  rewrite Forall_forall in Hb.
  rewrite !list_lookup_fmap, length_fmap. do 2 f_equal.
  - destruct (_ !! 0%nat) as [first|] eqn:Hl; [|done]. simpl.
    apply parseIntOfToString_integer, Hb. by eapply list_elem_of_lookup_2.
  - destruct (_ !! _) as [lastEvent|] eqn:Hl; [|done]. simpl.
    apply parseIntOfToString_integer, Hb. by eapply list_elem_of_lookup_2.
Qed.

(** X6: in the document the newer dialog exports, every event's frame is a
    row of the compacted frame table, every row is used by some event, every
    row is a record of the profile's full frame table (never [undefined]),
    and the compacted table is no longer than the full one. *)
Theorem newDialog_export_integrity (profile : list Call)
    (startValue endValue : Q) :
  ∃ doc, NewDialog.handleExportJson profile startValue endValue =
           NewDialog.Downloaded doc ∧
    Forall (λ e, (frame e < length (NewDialog.sharedFrames doc))%nat)
      (NewDialog.profileEvents doc) ∧
    (∀ j, (j < length (NewDialog.sharedFrames doc))%nat →
       ∃ e, e ∈ NewDialog.profileEvents doc ∧ frame e = j) ∧
    (∀ j x, NewDialog.sharedFrames doc !! j = Some x →
       ∃ r, x = Some r ∧ r ∈ frames (interner (forEachCall profile))) ∧
    (length (NewDialog.sharedFrames doc) ≤
     length (frames (interner (forEachCall profile))))%nat.
Proof.
  eexists. split; [apply newDialog_document|].
  cbn [NewDialog.sharedFrames NewDialog.profileEvents].
  destruct (compressLoop_valid None
              (Some <$> frames (interner (forEachCall profile)))
              (filterEventsWithContext (events (forEachCall profile))
                 startValue endValue)) as (Hlt & Hused & Hvalid).
  destruct Hvalid as [Hlen Hrows].
  { pose proof (filter_valid profile startValue endValue) as Hv.
    eapply Forall_impl; [exact Hv|]. intros e He. by rewrite length_fmap. }
  rewrite length_fmap in Hlen.
  split; [exact Hlt|]. split; [|split; [|exact Hlen]].
  - intros j Hj. destruct (Hused j Hj) as (e & He & Hf).
    eexists. split; [by apply list_elem_of_fmap_2|done].
  - intros j x Hx. apply Hrows in Hx.
    apply list_elem_of_fmap in Hx as (r & -> & Hr). eauto.
Qed.

(** X7: the two dialogs export the same profile for the same window: the
    same startValue and endValue, the same number of events with the same
    types and timestamps in the same order, and each event of the newer
    dialog points, in the compacted table, at the record the event of the
    older dialog points at in the full table. *)
Theorem dialogs_agree (profile : list Call) (startValue endValue : Q) :
  ∃ doc doc',
    handleExportJson profile startValue endValue = Downloaded doc ∧
    NewDialog.handleExportJson profile startValue endValue =
      NewDialog.Downloaded doc' ∧
    NewDialog.profileStartValue doc' = profileStartValue doc ∧
    NewDialog.profileEndValue doc' = profileEndValue doc ∧
    length (NewDialog.profileEvents doc') = length (profileEvents doc) ∧
    ∀ i e, profileEvents doc !! i = Some e →
      ∃ e', NewDialog.profileEvents doc' !! i = Some e' ∧
            type e' = type e ∧ at_ e' = at_ e ∧
            NewDialog.sharedFrames doc' !! frame e' =
              Some (sharedFrames doc !! frame e).
Proof.
  eexists. eexists.
  split; [apply handleExportJson_document|].
  split; [apply newDialog_document|].
  cbn [NewDialog.sharedFrames NewDialog.profileEvents
       NewDialog.profileStartValue NewDialog.profileEndValue
       sharedFrames profileEvents profileStartValue profileEndValue].
  split; [done|]. split; [done|]. split; [by rewrite length_fmap|].
  intros i e He. eexists. rewrite list_lookup_fmap, He.
  split; [done|]. split; [done|]. split; [done|].
  destruct (compressLoop_spec None
              (Some <$> frames (interner (forEachCall profile)))
              (filterEventsWithContext (events (forEachCall profile))
                 startValue endValue)) as [-> _].
  rewrite list_lookup_fmap.
  rewrite (remapEvent_frame None _ _ e) by (by eapply list_elem_of_lookup_2).
  simpl. f_equal. rewrite nth_lookup, list_lookup_fmap.
  by destruct (frames (interner (forEachCall profile)) !! frame e).
Qed.

(** ** The fallback encoder and its limit *)

Lemma getIndexForFrames_length (frs : list Frame) (st : Interner) :
  length (getIndexForFrames frs st).1 = length frs.
Proof.
  revert st. induction frs as [|fr frs IH]; intros st; [done|].
  rewrite getIndexForFrames_cons. simpl. by rewrite IH.
Qed.

Lemma forEachCall_length (profile : list Call) :
  length (events (forEachCall profile)) = length profile.
Proof.
  destruct (forEachCall_spec profile) as [_ ->].
  rewrite length_zip_with, getIndexForFrames_length, length_fmap. lia.
Qed.

Lemma forEachCallWithLimit_fold (limit : Z) (profile : list Call)
    (st : Application.LimitedEncoder) :
  let step := λ st c,
    match c with
    | CallOpen fr v => Application.openFrame limit fr v st
    | CallClose fr v => Application.closeFrame limit fr v st
    end in
  Application.encoder (fold_left step profile st) =
  fold_left invoke
    (take (Z.to_nat (limit - Application.eventCount st)) profile)
    (Application.encoder st).
Proof.
  cbv zeta. revert st. induction profile as [|c profile IH]; intros st.
  - by rewrite take_nil.
  - simpl fold_left at 1. rewrite IH.
    destruct (Z.leb_spec limit (Application.eventCount st)) as [Hle|Hlt].
    + assert (Hst : (match c with
        | CallOpen fr v => Application.openFrame limit fr v st
        | CallClose fr v => Application.closeFrame limit fr v st
        end) = st).
      { destruct c; unfold Application.openFrame, Application.closeFrame;
          by destruct (Z.leb_spec limit (Application.eventCount st)); [|lia]. }
      rewrite Hst.
      by replace (Z.to_nat (limit - Application.eventCount st)) with 0%nat by lia.
    + replace (Z.to_nat (limit - Application.eventCount st))
        with (S (Z.to_nat (limit - (Application.eventCount st + 1)))) by lia.
      rewrite firstn_cons. simpl fold_left.
      destruct c; unfold Application.openFrame, Application.closeFrame;
        destruct (Z.leb_spec limit (Application.eventCount st)); try lia;
        reflexivity.
Qed.

(** X8: the fallback encoder of the application stops after [maxEvents]
    callback invocations: it is the dialog's encoder run on the first
    [maxEvents] invocations of the profile, so it returns the same table and
    events for a profile with at most [maxEvents] invocations, and never more
    than [maxEvents] events. *)
Theorem application_encoder_limit (profile : list Call) :
  let limit := Z.to_nat Application.maxEvents in
  Application.forEachCall profile = forEachCall (take limit profile) ∧
  length (events (Application.forEachCall profile)) =
    Nat.min limit (length profile) ∧
  ((length profile ≤ limit)%nat →
   Application.forEachCall profile = forEachCall profile).
Proof.
  cbv zeta. unfold Application.forEachCall, Application.forEachCallWithLimit.
  generalize Application.maxEvents. intros limit.
  assert (Heq : Application.encoder
    (fold_left (λ st c,
       match c with
       | CallOpen fr v => Application.openFrame limit fr v st
       | CallClose fr v => Application.closeFrame limit fr v st
       end) profile
       {| Application.encoder := {| interner := emptyInterner; events := [] |};
          Application.eventCount := 0 |}) =
    forEachCall (take (Z.to_nat limit) profile)).
  { rewrite (forEachCallWithLimit_fold limit profile). cbn [Application.encoder
      Application.eventCount]. rewrite Z.sub_0_r. reflexivity. }
  rewrite Heq. split; [done|]. split.
  - by rewrite forEachCall_length, length_take.
  - intros Hle. by rewrite take_ge.
Qed.

Lemma application_encoder_limit_witness :
  Application.forEachCall scenarioAProfile = forEachCall scenarioAProfile.
Proof.
  apply (application_encoder_limit scenarioAProfile).
  apply Nat2Z.inj_le. rewrite Z2Nat.id by done. by vm_compute.
Defined.

(** ** Replaying the events on a call stack *)

Lemma lastIndexOf_lt (x : nat) (l : list nat) (i : nat) :
  lastIndexOf x l = Some i → (i < length l)%nat.
Proof.
  revert i. induction l as [|y l IH]; intros i; simpl; [done|].
  destruct (lastIndexOf x l) as [j|].
  - intros [= <-]. specialize (IH j eq_refl). lia.
  - destruct (decide (y = x)); [|done]. intros [= <-]. lia.
Qed.

Lemma lastIndexOf_snoc (x y : nat) (l : list nat) :
  lastIndexOf x (l ++ [y]) =
  if decide (y = x) then Some (length l) else lastIndexOf x l.
Proof.
  induction l as [|z l IH]; simpl.
  - by destruct (decide (y = x)).
  - rewrite IH. destruct (decide (y = x)); [done|].
    by destruct (lastIndexOf x l).
Qed.

(** Removing the last occurrence, read from the end of the stack. *)
Lemma close_snoc (x y : nat) (l : list nat) :
  match lastIndexOf x (l ++ [y]) with
  | Some i => delete i (l ++ [y])
  | None => l ++ [y]
  end =
  if decide (y = x) then l
  else match lastIndexOf x l with
       | Some i => delete i l
       | None => l
       end ++ [y].
Proof.
  rewrite lastIndexOf_snoc. destruct (decide (y = x)) as [->|Hne].
  - induction l as [|z l IH]; [done|]. simpl. by rewrite IH.
  - destruct (lastIndexOf x l) as [i|] eqn:Hi; [|done].
    apply lastIndexOf_lt in Hi. clear -Hi. revert i Hi.
    induction l as [|z l IH]; intros i Hi; simpl in *; [lia|].
    destruct i as [|i]; [done|]. simpl. rewrite IH by lia. done.
Qed.

Lemma fold_recordEvent_stack (l : list Event) (callStack : list nat)
    (history : list StackEntry) :
  (fold_left recordEvent l (callStack, history)).1 =
  fold_left callStackAfter l callStack.
Proof.
  revert callStack history. induction l as [|e l IH]; intros cs h; [done|].
  simpl. apply IH.
Qed.

Lemma fold_recordEvent_history (l : list Event) (callStack : list nat)
    (history : list StackEntry) :
  length (fold_left recordEvent l (callStack, history)).2 =
  (length history + length l)%nat.
Proof.
  revert callStack history. induction l as [|e l IH]; intros cs h; simpl; [lia|].
  rewrite IH, length_app. simpl. lia.
Qed.

Lemma callStackAfter_close_top (callStack : list nat) (f : nat) (b : Z) :
  callStackAfter (callStack ++ [f]) (mkEvent CloseFrame f b) = callStack.
Proof.
  unfold callStackAfter. cbn [type frame].
  rewrite close_snoc. by rewrite decide_True.
Qed.

Lemma callStackAfter_nested (l : list Event) :
  Nested l → ∀ callStack, fold_left callStackAfter l callStack = callStack.
Proof.
  induction 1 as [|f a b inner rest _ IHinner _ IHrest]; intros cs; [done|].
  cbn [fold_left]. rewrite fold_left_app. cbn [fold_left].
  change (callStackAfter cs (mkEvent OpenFrame f a)) with (cs ++ [f]).
  rewrite IHinner, callStackAfter_close_top. apply IHrest.
Qed.

(** X9: on a well-nested, sorted stream the condensed view records one
    stack per event and ends with the empty call stack: every close finds
    its frame and removes it. *)
Theorem condensed_view_nested (profileEvents : list Event) :
  Nested profileEvents → StronglySorted leAt profileEvents →
  (stackHistoryOf profileEvents).1 = [] ∧
  length (stackHistoryOf profileEvents).2 = length profileEvents.
Proof.
  intros Hnested Hsorted. unfold stackHistoryOf.
  rewrite sortByAt_idem by done. split.
  - rewrite fold_recordEvent_stack. by apply callStackAfter_nested.
  - by rewrite fold_recordEvent_history.
Qed.

Lemma condensed_view_nested_witness :
  (stackHistoryOf scenarioA).1 = [] ∧
  length (stackHistoryOf scenarioA).2 = length scenarioA.
Proof.
  apply condensed_view_nested.
  - apply (Nested_call 0 0 900
             [ mkEvent OpenFrame 1 100;
               mkEvent OpenFrame 2 200; mkEvent OpenFrame 3 300;
               mkEvent CloseFrame 3 400; mkEvent CloseFrame 2 500;
               mkEvent OpenFrame 4 600; mkEvent CloseFrame 4 700;
               mkEvent CloseFrame 1 800 ] []); [|constructor].
    apply (Nested_call 1 100 800
             [ mkEvent OpenFrame 2 200; mkEvent OpenFrame 3 300;
               mkEvent CloseFrame 3 400; mkEvent CloseFrame 2 500;
               mkEvent OpenFrame 4 600; mkEvent CloseFrame 4 700 ] []);
      [|constructor].
    apply (Nested_call 2 200 500
             [ mkEvent OpenFrame 3 300; mkEvent CloseFrame 3 400 ]
             [ mkEvent OpenFrame 4 600; mkEvent CloseFrame 4 700 ]).
    + apply (Nested_call 3 300 400 [] []); constructor.
    + apply (Nested_call 4 600 700 [] []); constructor.
  - unfold scenarioA, leAt.
    repeat (apply SSorted_cons;
            [|repeat (apply Forall_cons; split; [simpl; lia|]); apply Forall_nil_2]).
    apply SSorted_nil.
Defined.

Lemma applyEvent_close_cons (x y : nat) (b : Z) (l : list nat) :
  NewDialog.applyEvent (y :: l) (mkEvent CloseFrame x b) =
  if decide (y = x) then l
  else y :: NewDialog.applyEvent l (mkEvent CloseFrame x b).
Proof.
  unfold NewDialog.applyEvent. cbn [type frame NewDialog.indexOf].
  destruct (decide (y = x)); [done|].
  by destruct (NewDialog.indexOf x l).
Qed.

(** The stack of the text export is the call stack of the condensed view
    read from the top. *)
Lemma applyEvent_mirror (callStack : list nat) (ev : Event) :
  NewDialog.applyEvent (reverse callStack) ev =
  reverse (callStackAfter callStack ev).
Proof.
  destruct ev as [[] x b].
  - unfold NewDialog.applyEvent, callStackAfter. cbn [type frame].
    by rewrite reverse_snoc.
  - induction callStack as [|y cs IH] using rev_ind; [done|].
    rewrite reverse_snoc, applyEvent_close_cons.
    unfold callStackAfter. cbn [type frame]. rewrite close_snoc.
    destruct (decide (y = x)); [done|].
    rewrite reverse_snoc. f_equal. exact IH.
Qed.

Lemma fold_replayEvent_stack (l : list Event) (st : NewDialog.Replay) :
  NewDialog.stack (fold_left NewDialog.replayEvent l st) =
  fold_left NewDialog.applyEvent l (NewDialog.stack st).
Proof.
  revert st. induction l as [|e l IH]; intros st; [done|].
  simpl. by rewrite IH.
Qed.

(** X10: the two stack replays agree on every event stream: the stack the
    text export keeps (newest frame first, a close removes the first
    occurrence) is the reverse of the call stack the condensed view keeps
    (newest frame last, a close removes the last occurrence). *)
Theorem stack_replays_mirror (evs : list Event) (header : list NewDialog.Line)
    (start : Q) :
  NewDialog.stack
    (fold_left NewDialog.replayEvent evs
       {| NewDialog.stack := []; NewDialog.lines := header;
          NewDialog.prevTime := start |}) =
  reverse (fold_left recordEvent evs ([], [])).1.
Proof.
  rewrite fold_replayEvent_stack, fold_recordEvent_stack.
  cbn [NewDialog.stack].
  change (@nil nat) with (reverse (@nil nat)) at 1.
  generalize (@nil nat). induction evs as [|e evs IH]; intros cs; [done|].
  simpl. rewrite applyEvent_mirror. apply IH.
Qed.

(** ** The text export *)

Lemma positive_spec (d : Q) : NewDialog.positive d = true ↔ (0 < d)%Q.
Proof.
  unfold NewDialog.positive. rewrite negb_true_iff. split.
  - intros H. apply Qnot_le_lt. intros Hle. apply Qle_bool_iff in Hle. congruence.
  - intros H. apply not_true_is_false. rewrite Qle_bool_iff.
    by apply Qlt_not_le.
Qed.

(** A line the replay can emit: a stack line with a non-empty stack of rows
    below [k] and a positive duration. *)
Lemma replayEvent_lines (k : nat) (evs : list Event) (st : NewDialog.Replay) :
  Forall (λ e, (frame e < k)%nat) evs →
  Forall (λ f, (f < k)%nat) (NewDialog.stack st) →
  let st' := fold_left NewDialog.replayEvent evs st in
  Forall (λ f, (f < k)%nat) (NewDialog.stack st') ∧
  ∃ body, NewDialog.lines st' = NewDialog.lines st ++ body ∧
    Forall (λ l, ∃ stack d, l = NewDialog.StackLine stack d ∧ stack ≠ [] ∧
                   (0 < d)%Q ∧ Forall (λ f, (f < k)%nat) stack) body.
Proof.
  intros Hevs. revert st. induction Hevs as [|e evs He Hevs IH]; intros st Hst.
  - simpl. split; [done|]. exists []. by rewrite app_nil_r.
  - cbn [fold_left]. cbv zeta in IH.
    destruct (IH (NewDialog.replayEvent st e)) as (Hst' & body & Hlines & Hbody).
    { cbn [NewDialog.replayEvent NewDialog.stack]. unfold NewDialog.applyEvent.
      destruct (type e); [by apply Forall_cons|].
      destruct (NewDialog.indexOf (frame e) (NewDialog.stack st)); [|done].
      by apply Forall_delete. }
    split; [exact Hst'|]. rewrite Hlines.
    cbn [NewDialog.replayEvent NewDialog.lines].
    destruct (NewDialog.positive _) eqn:Hpos; simpl.
    + case_bool_decide as Hlen.
      * eexists. rewrite <- app_assoc. split; [done|].
        apply Forall_app. split; [|exact Hbody].
        apply Forall_singleton. eexists _, _. split; [done|].
        split; [|split; [by apply positive_spec|done]].
        intros Hnil. rewrite Hnil in Hlen. simpl in Hlen. lia.
      * by exists body.
    + by exists body.
Qed.

Lemma symbolLines_spec (i : nat) (framesSlim : list (option SerializedFrame)) :
  Forall is_Some framesSlim →
  ∃ symbols, NewDialog.symbolLines i framesSlim = Some symbols ∧
    length symbols = length framesSlim ∧
    ∀ j r, framesSlim !! j = Some (Some r) →
           symbols !! j = Some (NewDialog.SymbolLine (i + j) (sname r)).
Proof.
  intros Hall. revert i. induction Hall as [|x fs [r ->] _ IH]; intros i.
  - exists []. done.
  - destruct (IH (S i)) as (ls & Hls & Hlen & Hrows). simpl. rewrite Hls.
    eexists. split; [done|]. split; [simpl; by rewrite Hlen|].
    intros [|j] r'; simpl.
    + intros [= <-]. by rewrite Nat.add_0_r.
    + intros Hj. rewrite (Hrows j r' Hj). do 2 f_equal. lia.
Qed.

Lemma totalDuration_app (l1 l2 : list NewDialog.Line) :
  (totalDuration (l1 ++ l2) == totalDuration l1 + totalDuration l2)%Q.
Proof.
  induction l1 as [|[text|j n|stack d] l1 IH]; simpl; rewrite ?IH; lra.
Qed.

(** The replay of sorted events never counts a stretch of time twice. *)
Lemma replayEvent_total (evs : list Event) (st : NewDialog.Replay) :
  StronglySorted leAt evs →
  Forall (λ e, (NewDialog.prevTime st <= inject_Z (at_ e))%Q) evs →
  let st' := fold_left NewDialog.replayEvent evs st in
  (totalDuration (NewDialog.lines st') - totalDuration (NewDialog.lines st)
     <= NewDialog.prevTime st' - NewDialog.prevTime st)%Q ∧
  (NewDialog.prevTime st' = NewDialog.prevTime st ∨
   ∃ e, e ∈ evs ∧ NewDialog.prevTime st' = inject_Z (at_ e)).
Proof.
  intros Hsorted. revert st.
  induction Hsorted as [|e evs Hs IH Hall]; intros st Hprev; cbv zeta.
  - simpl. split; [lra|by left].
  - cbn [fold_left]. apply Forall_cons in Hprev as [He Hprev].
    destruct (IH (NewDialog.replayEvent st e)) as [Htot Hlast].
    { cbn [NewDialog.replayEvent NewDialog.prevTime].
      eapply Forall_impl; [exact Hall|]. intros e' Hle. unfold leAt in Hle.
      by rewrite <- Zle_Qle. }
    split.
    + assert (Hstep :
        (totalDuration (NewDialog.lines (NewDialog.replayEvent st e)) -
         totalDuration (NewDialog.lines st)
         <= inject_Z (at_ e) - NewDialog.prevTime st)%Q).
      { cbn [NewDialog.replayEvent NewDialog.lines].
        destruct (NewDialog.positive _ && _); [|lra].
        rewrite totalDuration_app. simpl. lra. }
      cbn [NewDialog.replayEvent NewDialog.prevTime] in Htot. lra.
    + right. destruct Hlast as [Heq|(e' & He' & Heq)].
      * exists e. split; [apply elem_of_cons; by left|].
        by rewrite Heq.
      * exists e'. split; [apply elem_of_cons; by right|done].
Qed.

Lemma symbolLines_total (i : nat) (framesSlim : list (option SerializedFrame))
    (symbols : list NewDialog.Line) :
  NewDialog.symbolLines i framesSlim = Some symbols →
  (totalDuration symbols == 0)%Q.
Proof.
  revert i symbols. induction framesSlim as [|[r|] fs IH]; intros i symbols; simpl.
  - by intros [= <-].
  - destruct (NewDialog.symbolLines (S i) fs) as [ls|] eqn:Hls; [|done].
    intros [= <-]. simpl. by eapply IH.
  - done.
Qed.

(** The text export in terms of the filter and the loop of the compactor:
    the symbol table never hits an [undefined] entry. *)
Lemma handleExportText_eq (profile : list Call) (s t : Q) :
  let full := Some <$> frames (interner (forEachCall profile)) in
  let filtered := filterEventsWithContext (events (forEachCall profile)) s t in
  let framesSlim := (compressLoop None full filtered).2 in
  let remapped := remapEvent (compressLoop None full filtered).1 <$> filtered in
  ∃ symbols,
    NewDialog.symbolLines 0 framesSlim = Some symbols ∧
    length symbols = length framesSlim ∧
    (∀ j r, framesSlim !! j = Some (Some r) →
            symbols !! j = Some (NewDialog.SymbolLine j (sname r))) ∧
    NewDialog.handleExportText profile s t =
    NewDialog.TextDownloaded
      (NewDialog.flushTail t
         (fold_left NewDialog.replayEvent remapped
            {| NewDialog.stack := [];
               NewDialog.lines := NewDialog.header symbols;
               NewDialog.prevTime :=
                 match remapped !! 0%nat with
                 | Some first => inject_Z (at_ first)
                 | None => s
                 end |})).
Proof.
  cbv zeta.
  destruct (compressLoop_valid None
              (Some <$> frames (interner (forEachCall profile)))
              (filterEventsWithContext (events (forEachCall profile)) s t))
    as (_ & _ & Hvalid).
  destruct Hvalid as [_ Hrows].
  { pose proof (filter_valid profile s t) as Hv.
    eapply Forall_impl; [exact Hv|]. intros e He. by rewrite length_fmap. }
  destruct (symbolLines_spec 0
              (compressLoop None (Some <$> frames (interner (forEachCall profile)))
                 (filterEventsWithContext (events (forEachCall profile)) s t)).2)
    as (symbols & Hsym & Hlen & Hnames).
  { apply Forall_forall. intros x Hx.
    apply list_elem_of_lookup_1 in Hx as [j Hj]. apply Hrows in Hj.
    apply list_elem_of_fmap in Hj as (r & -> & _). eauto. }
  exists symbols. split; [exact Hsym|]. split; [exact Hlen|]. split; [exact Hnames|].
  unfold NewDialog.handleExportText.
  rewrite sortByAt_idem by apply filterEventsWithContext_sorted.
  rewrite compressFramesAndRemap_eq. cbn [fst snd]. by rewrite Hsym.
Qed.

Lemma flushTail_lines (k : nat) (t : Q) (st : NewDialog.Replay) :
  Forall (λ f, (f < k)%nat) (NewDialog.stack st) →
  ∃ tail, NewDialog.flushTail t st = NewDialog.lines st ++ tail ∧
    Forall (λ l, ∃ stack d, l = NewDialog.StackLine stack d ∧ stack ≠ [] ∧
                   (0 < d)%Q ∧ Forall (λ f, (f < k)%nat) stack) tail.
Proof.
  intros Hst. unfold NewDialog.flushTail.
  destruct (NewDialog.positive _) eqn:Hpos; simpl.
  - case_bool_decide as Hlen.
    + eexists. split; [done|]. apply Forall_singleton.
      eexists _, _. split; [done|].
      split; [|split; [by apply positive_spec|done]].
      intros Hnil. rewrite Hnil in Hlen. simpl in Hlen. lia.
    + exists []. by rewrite app_nil_r.
  - exists []. by rewrite app_nil_r.
Qed.

(** X11: "Export Text" always produces a file (its symbol table never reads
    an [undefined] entry); the symbol lines number the rows of the compacted
    frame table that "Export JSON" exports, with their names; and every
    stack line has a positive duration and a non-empty stack of indices that
    all have a symbol line. *)
Theorem text_export_integrity (profile : list Call) (startValue endValue : Q) :
  ∃ doc symbols body,
    NewDialog.handleExportJson profile startValue endValue =
      NewDialog.Downloaded doc ∧
    NewDialog.handleExportText profile startValue endValue =
      NewDialog.TextDownloaded (NewDialog.header symbols ++ body) ∧
    length symbols = length (NewDialog.sharedFrames doc) ∧
    (∀ j r, NewDialog.sharedFrames doc !! j = Some (Some r) →
            symbols !! j = Some (NewDialog.SymbolLine j (sname r))) ∧
    Forall (λ l, ∃ stack d, l = NewDialog.StackLine stack d ∧ stack ≠ [] ∧
                   (0 < d)%Q ∧ Forall (λ f, (f < length symbols)%nat) stack)
      body.
Proof.
  destruct (handleExportText_eq profile startValue endValue)
    as (symbols & _ & Hlen & Hnames & Htext).
  destruct (compressLoop_valid None
              (Some <$> frames (interner (forEachCall profile)))
              (filterEventsWithContext (events (forEachCall profile))
                 startValue endValue)) as (Hlt & _ & _).
  rewrite <- Hlen in Hlt.
  match type of Htext with
  | _ = NewDialog.TextDownloaded
          (NewDialog.flushTail _ (fold_left _ ?evs ?st0)) =>
      destruct (replayEvent_lines (length symbols) evs st0 Hlt)
        as (Hstack & body & Hlines & Hbody); [by apply Forall_nil_2|];
      destruct (flushTail_lines (length symbols) endValue
                  (fold_left NewDialog.replayEvent evs st0) Hstack)
        as (tail & Hflush & Htail)
  end.
  eexists. exists symbols, (body ++ tail).
  split; [apply newDialog_document|]. split; [|split; [exact Hlen|split]].
  - rewrite Htext, Hflush, Hlines. cbn [NewDialog.lines].
    by rewrite <- app_assoc.
  - exact Hnames.
  - by apply Forall_app.
Qed.

(** X12: for a window with 0 ≤ start ≤ end whose start is printed in
    positional notation and whose end is an integer below 2^53 (all times
    are then integers that the code subtracts exactly), the durations of
    the stack lines of the text export add up to at most the length of the
    window, measured from the integer part of the start: no stretch of
    time is counted twice. *)
Theorem text_export_time (profile : list Call) (startValue : Q) (endValue : Z) :
  (0 <= startValue)%Q → (startValue <= inject_Z endValue)%Q →
  printsPositional startValue = true → endValue < 2 ^ 53 →
  ∃ fileLines,
    NewDialog.handleExportText profile startValue (inject_Z endValue) =
      NewDialog.TextDownloaded fileLines ∧
    (totalDuration fileLines
       <= inject_Z endValue - inject_Z (integerPart startValue))%Q.
Proof.
  intros Hs Hst Hps Hend.
  assert (Hpt : printsPositional (inject_Z endValue) = true).
  { apply printsPositional_integer.
    assert (0 ≤ endValue) by (rewrite Zle_Qle; by eapply Qle_trans).
    assert (2 ^ 53 < 10 ^ 21) by done. lia. }
  destruct (handleExportText_eq profile startValue (inject_Z endValue))
    as (symbols & Hsym & _ & _ & Htext).
  eexists. split; [exact Htext|].
  set (filtered := filterEventsWithContext (events (forEachCall profile))
                     startValue (inject_Z endValue)) in *.
  set (remapped := remapEvent _ <$> filtered) in *.
  assert (Hbounds : ∀ e, e ∈ remapped →
    (inject_Z (integerPart startValue) <= inject_Z (at_ e))%Q ∧
    (inject_Z (at_ e) <= inject_Z endValue)%Q).
  { intros e He. apply list_elem_of_fmap in He as (e0 & -> & He0).
    rewrite <- (parseIntOfToString_positional startValue Hps), <- Zle_Qle.
    exact (filter_in_positional_window _ _ _ e0 Hs Hst Hps Hpt He0). }
  assert (Hsorted : StronglySorted leAt remapped)
    by apply remapEvent_sorted, filterEventsWithContext_sorted.
  pose proof (integerPart_le startValue Hs) as Htrunc.
  set (start := match remapped !! 0%nat with
                | Some first => inject_Z (at_ first) | None => startValue end) in *.
  assert (Hstart : (inject_Z (integerPart startValue) <= start)%Q ∧
                   Forall (λ e, (start <= inject_Z (at_ e))%Q) remapped).
  { unfold start. destruct remapped as [|first rest] eqn:Hr; simpl.
    - split; [done|apply Forall_nil_2].
    - split; [apply Hbounds; apply elem_of_cons; by left|].
      apply Forall_forall. intros e He. rewrite <- Zle_Qle.
      apply list_elem_of_lookup_1 in He as [j Hj].
      apply (sorted_lookup_le (first :: rest) 0 j); [done|done|done|lia]. }
  destruct Hstart as [Hstart Hall].
  destruct (replayEvent_total remapped
              {| NewDialog.stack := []; NewDialog.lines := NewDialog.header symbols;
                 NewDialog.prevTime := start |} Hsorted Hall) as [Htot Hlast].
  cbn [NewDialog.lines NewDialog.prevTime] in Htot, Hlast.
  assert (Hhead : (totalDuration (NewDialog.header symbols) == 0)%Q).
  { unfold NewDialog.header. simpl. rewrite totalDuration_app. simpl.
    rewrite (symbolLines_total _ _ _ Hsym). lra. }
  assert (Hprev : (NewDialog.prevTime
    (fold_left NewDialog.replayEvent remapped
       {| NewDialog.stack := []; NewDialog.lines := NewDialog.header symbols;
          NewDialog.prevTime := start |}) <= inject_Z endValue)%Q ∨
    NewDialog.prevTime
    (fold_left NewDialog.replayEvent remapped
       {| NewDialog.stack := []; NewDialog.lines := NewDialog.header symbols;
          NewDialog.prevTime := start |}) = start).
  { destruct Hlast as [Heq|(e & He & Heq)]; [by right|left].
    rewrite Heq. by apply Hbounds. }
  unfold NewDialog.flushTail.
  destruct (NewDialog.positive _ && _) eqn:Hcond.
  - rewrite totalDuration_app. simpl. lra.
  - destruct Hprev as [Hle|Heq]; [lra|]. rewrite Heq in Htot. lra.
Qed.

Lemma text_export_time_witness :
  ∃ fileLines,
    NewDialog.handleExportText scenarioAProfile (401 # 2) (inject_Z 600) =
      NewDialog.TextDownloaded fileLines ∧
    (totalDuration fileLines <= inject_Z 600 - inject_Z 200)%Q.
Proof.
  apply (text_export_time scenarioAProfile (401 # 2) 600); done.
Defined.

(** ** The token cache *)

Lemma toInt32_range (z : Z) : - 2 ^ 31 ≤ TokenCache.toInt32 z < 2 ^ 31.
Proof.
  unfold TokenCache.toInt32.
  pose proof (Z.mod_pos_bound (z + 2 ^ 31) (2 ^ 32) ltac:(lia)). lia.
Qed.

Lemma toInt32_small (z : Z) : - 2 ^ 31 ≤ z < 2 ^ 31 → TokenCache.toInt32 z = z.
Proof.
  intros Hz. unfold TokenCache.toInt32. rewrite Z.mod_small; lia.
Qed.

(** Wrapping is compatible with the arithmetic of the hash. *)
Lemma toInt32_congr (a b : Z) :
  (a - b) mod 2 ^ 32 = 0 → TokenCache.toInt32 a = TokenCache.toInt32 b.
Proof.
  intros H. unfold TokenCache.toInt32. f_equal.
  apply Z.mod_divide in H; [|lia]. destruct H as [k Hk].
  replace (a + 2 ^ 31) with (b + 2 ^ 31 + k * 2 ^ 32) by lia.
  apply Z.mod_add. lia.
Qed.

Lemma toInt32_diff (z : Z) : (TokenCache.toInt32 z - z) mod 2 ^ 32 = 0.
Proof.
  unfold TokenCache.toInt32.
  rewrite (Z.mod_eq (z + 2 ^ 31) (2 ^ 32)) by lia.
  replace (z + 2 ^ 31 - 2 ^ 32 * ((z + 2 ^ 31) / 2 ^ 32) - 2 ^ 31 - z)
    with (- ((z + 2 ^ 31) / 2 ^ 32) * 2 ^ 32) by lia.
  apply Z.mod_mul. lia.
Qed.

(** One step of the hash is multiplication by 31 plus the code unit,
    wrapped to 32 bits. *)
Lemma hashStep_31 (hash char : Z) :
  - 2 ^ 31 ≤ hash < 2 ^ 31 →
  TokenCache.hashStep hash char = TokenCache.toInt32 (31 * hash + char).
Proof.
  intros Hh. unfold TokenCache.hashStep.
  rewrite (toInt32_small hash Hh), Z.shiftl_mul_pow2 by lia.
  apply toInt32_congr.
  pose proof (toInt32_diff (hash * 2 ^ 5)) as Hd.
  apply Z.mod_divide in Hd; [|lia]. destruct Hd as [k Hk].
  replace (TokenCache.toInt32 (hash * 2 ^ 5) - hash + char - (31 * hash + char))
    with (k * 2 ^ 32) by lia.
  apply Z.mod_mul. lia.
Qed.

Lemma hashFrom_polynomial (key : string) (hash p : Z) :
  - 2 ^ 31 ≤ hash < 2 ^ 31 → (hash - p) mod 2 ^ 32 = 0 →
  TokenCache.hashFrom hash key =
  TokenCache.toInt32 (TokenCache.polynomial31 p key).
Proof.
  revert hash p. induction key as [|c rest IH]; intros hash p Hh Hp; simpl.
  - rewrite <- (toInt32_small hash Hh). by apply toInt32_congr.
  - apply IH; [rewrite hashStep_31 by done; apply toInt32_range|].
    rewrite hashStep_31 by done.
    pose proof (toInt32_diff (31 * hash + TokenCache.charCode c)) as Hd.
    apply Z.mod_divide in Hd; [|lia]. destruct Hd as [k Hk].
    apply Z.mod_divide in Hp; [|lia]. destruct Hp as [j Hj].
    replace (TokenCache.toInt32 (31 * hash + TokenCache.charCode c) -
             (31 * p + TokenCache.charCode c))
      with ((k + 31 * j) * 2 ^ 32) by lia.
    apply Z.mod_mul. lia.
Qed.

(** Seven digits are enough for the numbers the cache prints: more fuel
    gives the same string. *)
Lemma digits36_enough (fuel extra : nat) (n : Z) (acc : string) :
  0 ≤ n < 36 ^ Z.of_nat (S fuel) →
  TokenCache.digits36 (S fuel + extra) n acc = TokenCache.digits36 (S fuel) n acc.
Proof.
  revert n acc. induction fuel as [|fuel IH]; intros n acc Hn.
  - cbn [TokenCache.digits36 Nat.add].
    assert (Hq : n / 36 = 0) by (apply Z.div_small; lia).
    rewrite Hq. done.
  - change (S (S fuel) + extra)%nat with (S (S fuel + extra)).
    cbn [TokenCache.digits36]. destruct (n / 36 =? 0) eqn:Hq; [done|].
    apply IH. split; [apply Z.div_pos; lia|].
    apply Z.div_lt_upper_bound; [lia|].
    rewrite Nat2Z.inj_succ, Z.pow_succ_r in Hn by lia. lia.
Qed.

(** X13: the hash of a cache key is the polynomial in 31 of the code units
    of [url + ':' + clientId], wrapped to 32 bits; so it lies in
    [-2^31, 2^31), the number printed in the key is at most 2^31, and the
    seven base-36 digits the model allows print it completely. *)
Theorem cache_key_hash (key : string) :
  TokenCache.hashFrom 0 key =
    TokenCache.toInt32 (TokenCache.polynomial31 0 key) ∧
  - 2 ^ 31 ≤ TokenCache.hashFrom 0 key < 2 ^ 31 ∧
  0 ≤ Z.abs (TokenCache.hashFrom 0 key) ≤ 2 ^ 31 ∧
  ∀ extra, TokenCache.digits36 (7 + extra) (Z.abs (TokenCache.hashFrom 0 key)) "" =
           TokenCache.toString36 (Z.abs (TokenCache.hashFrom 0 key)).
Proof.
  assert (H : TokenCache.hashFrom 0 key =
              TokenCache.toInt32 (TokenCache.polynomial31 0 key)).
  { apply hashFrom_polynomial; [lia|]. by rewrite Z.sub_diag. }
  pose proof (toInt32_range (TokenCache.polynomial31 0 key)) as Hr.
  split; [exact H|]. rewrite H.
  split; [exact Hr|]. split; [lia|].
  intros extra. apply (digits36_enough 6 extra).
  change (36 ^ Z.of_nat 7) with 78364164096. lia.
Qed.

Lemma hashFrom_range (key : string) (hash : Z) :
  - 2 ^ 31 ≤ hash < 2 ^ 31 → - 2 ^ 31 ≤ TokenCache.hashFrom hash key < 2 ^ 31.
Proof.
  revert hash. induction key as [|c rest IH]; intros hash Hh; simpl; [done|].
  apply IH. rewrite hashStep_31 by done. apply toInt32_range.
Qed.

Lemma hashFrom_app (s1 s2 : string) (hash : Z) :
  TokenCache.hashFrom hash (s1 +:+ s2) =
  TokenCache.hashFrom (TokenCache.hashFrom hash s1) s2.
Proof.
  revert hash. induction s1 as [|c s1 IH]; intros hash; simpl; [done|]. apply IH.
Qed.

(** The classic collision of the polynomial in 31: 'A'*31 + 'a' = 'B'*31 + 'B'. *)
Lemma hashFrom_Aa_BB (hash : Z) :
  - 2 ^ 31 ≤ hash < 2 ^ 31 →
  TokenCache.hashFrom hash "Aa" = TokenCache.hashFrom hash "BB".
Proof.
  intros Hh.
  change (TokenCache.hashFrom hash "Aa")
    with (TokenCache.hashStep (TokenCache.hashStep hash 65) 97).
  change (TokenCache.hashFrom hash "BB")
    with (TokenCache.hashStep (TokenCache.hashStep hash 66) 66).
  rewrite (hashStep_31 hash) by done. rewrite (hashStep_31 hash) by done.
  rewrite !hashStep_31 by apply toInt32_range.
  transitivity (TokenCache.toInt32 (961 * hash + 2112)).
  - apply toInt32_congr.
    pose proof (toInt32_diff (31 * hash + 65)) as Hd.
    apply Z.mod_divide in Hd; [|lia]. destruct Hd as [k Hk].
    replace (31 * TokenCache.toInt32 (31 * hash + 65) + 97 - (961 * hash + 2112))
      with (31 * k * 2 ^ 32) by lia.
    apply Z.mod_mul. lia.
  - symmetry. apply toInt32_congr.
    pose proof (toInt32_diff (31 * hash + 66)) as Hd.
    apply Z.mod_divide in Hd; [|lia]. destruct Hd as [k Hk].
    replace (31 * TokenCache.toInt32 (31 * hash + 66) + 66 - (961 * hash + 2112))
      with (31 * k * 2 ^ 32) by lia.
    apply Z.mod_mul. lia.
Qed.

Lemma getCacheKey_Aa_BB (config : OAuthConfig) (clientId : string) :
  TokenCache.getCacheKey config (clientId +:+ "Aa") =
  TokenCache.getCacheKey config (clientId +:+ "BB").
Proof.
  unfold TokenCache.getCacheKey. do 3 f_equal.
  rewrite !hashFrom_app.
  apply hashFrom_Aa_BB. do 2 (apply hashFrom_range). apply hashFrom_range. lia.
Qed.

Lemma getToken_setToken (cache : gmap string TokenCache.CachedToken) (config config' : OAuthConfig)
    (clientId clientId' : string) (tokenResponse : TokenCache.TokenResponse)
    (now now' : Z) :
  TokenCache.getCacheKey config' clientId' = TokenCache.getCacheKey config clientId →
  let cache' := TokenCache.setToken cache config clientId tokenResponse now in
  let lifetime := orDefaultZ (TokenCache.expires_in tokenResponse) 3600 in
  TokenCache.getToken cache' config' clientId' now' =
  if (now + lifetime * 1000 <=? now' + 300000)%Z
  then (None, TokenCache.clearToken cache' config clientId)
  else (Some (TokenCache.access_token tokenResponse), cache').
Proof.
  intros Hkey. unfold TokenCache.getToken, TokenCache.setToken. cbv zeta.
  rewrite Hkey, lookup_insert_eq. cbn [TokenCache.expires_at
    TokenCache.cached_access_token].
  change (5 * 60 * 1000) with 300000.
  destruct (_ <=? _)%Z; [|done]. unfold TokenCache.clearToken. done.
Qed.

(** X14: a token stored at time [now] is returned by [getToken] at time
    [now'] exactly while now' + 5 minutes < now + lifetime, where the
    lifetime is [expires_in] seconds, or 3600 when [expires_in] is missing or
    0; from then on (the boundary included) [getToken] returns null and
    removes the entry, after which the token is gone whatever the clock
    says, and [hasValidToken] answers accordingly. *)
Theorem token_cache_lifetime (cache : gmap string TokenCache.CachedToken) (config : OAuthConfig)
    (clientId : string) (tokenResponse : TokenCache.TokenResponse) (now now' : Z) :
  let cache' := TokenCache.setToken cache config clientId tokenResponse now in
  let lifetime := orDefaultZ (TokenCache.expires_in tokenResponse) 3600 in
  (now' + 300000 < now + lifetime * 1000 →
     TokenCache.getToken cache' config clientId now' =
       (Some (TokenCache.access_token tokenResponse), cache') ∧
     TokenCache.hasValidToken cache' config clientId now' = (true, cache')) ∧
  (now + lifetime * 1000 ≤ now' + 300000 →
     ∃ cache'',
       TokenCache.getToken cache' config clientId now' = (None, cache'') ∧
       TokenCache.hasValidToken cache' config clientId now' = (false, cache'') ∧
       ∀ now'', TokenCache.getToken cache'' config clientId now'' = (None, cache'')).
Proof.
  cbv zeta. split.
  - intros Hlt.
    assert (Hget : TokenCache.getToken
              (TokenCache.setToken cache config clientId tokenResponse now)
              config clientId now' =
            (Some (TokenCache.access_token tokenResponse),
             TokenCache.setToken cache config clientId tokenResponse now)).
    { rewrite (getToken_setToken cache config config clientId clientId) by done.
      cbv zeta. by destruct (Z.leb_spec
        (now + orDefaultZ (TokenCache.expires_in tokenResponse) 3600 * 1000)
        (now' + 300000)); [lia|]. }
    split; [exact Hget|]. unfold TokenCache.hasValidToken. by rewrite Hget.
  - intros Hle. eexists.
    assert (Hget : TokenCache.getToken
              (TokenCache.setToken cache config clientId tokenResponse now)
              config clientId now' =
            (None, TokenCache.clearToken
               (TokenCache.setToken cache config clientId tokenResponse now)
               config clientId)).
    { rewrite (getToken_setToken cache config config clientId clientId) by done.
      cbv zeta. by destruct (Z.leb_spec
        (now + orDefaultZ (TokenCache.expires_in tokenResponse) 3600 * 1000)
        (now' + 300000)); [|lia]. }
    split; [exact Hget|]. split.
    + unfold TokenCache.hasValidToken. by rewrite Hget.
    + intros now''. unfold TokenCache.getToken, TokenCache.clearToken.
      by rewrite lookup_delete_eq.
Qed.

Lemma token_cache_lifetime_witness :
  let response :=
    {| TokenCache.access_token := "tok"; TokenCache.token_type := JsUndefined;
       TokenCache.expires_in := JsValue 0; TokenCache.scope := JsNull |} in
  let cache' := TokenCache.setToken ∅ DEFAULT_OAUTH_CONFIG "client" response 0 in
  TokenCache.getToken cache' DEFAULT_OAUTH_CONFIG "client" 3299999 =
    (Some "tok", cache') ∧
  ∃ cache'',
    TokenCache.getToken cache' DEFAULT_OAUTH_CONFIG "client" 3300000 =
      (None, cache'').
Proof.
  intros response cache'.
  destruct (token_cache_lifetime ∅ DEFAULT_OAUTH_CONFIG "client" response
              0 3299999) as [Hvalid _].
  destruct (token_cache_lifetime ∅ DEFAULT_OAUTH_CONFIG "client" response
              0 3300000) as [_ Hexpired].
  split.
  - apply Hvalid. simpl. lia.
  - destruct Hexpired as (cache'' & Hget & _); [simpl; lia|]. eauto.
Defined.

(** X15: the cache confuses client ids: for every configuration and every
    client id [c], the ids [c ++ "Aa"] and [c ++ "BB"] have the same cache
    key, so a token stored for the one is returned, while valid, to the
    other. *)
Theorem token_cache_collision (cache : gmap string TokenCache.CachedToken) (config : OAuthConfig)
    (clientId : string) (tokenResponse : TokenCache.TokenResponse) (now now' : Z) :
  now' + 300000 < now + orDefaultZ (TokenCache.expires_in tokenResponse) 3600 * 1000 →
  clientId +:+ "Aa" ≠ clientId +:+ "BB" ∧
  TokenCache.getCacheKey config (clientId +:+ "Aa") =
    TokenCache.getCacheKey config (clientId +:+ "BB") ∧
  (TokenCache.getToken
     (TokenCache.setToken cache config (clientId +:+ "Aa") tokenResponse now)
     config (clientId +:+ "BB") now').1 =
    Some (TokenCache.access_token tokenResponse).
Proof.
  intros Hlt. split; [|split].
  - induction clientId as [|c s IH]; simpl; [discriminate|].
    intros [= H]. by apply IH.
  - apply getCacheKey_Aa_BB.
  - rewrite (getToken_setToken cache config config (clientId +:+ "Aa")
               (clientId +:+ "BB")) by (symmetry; apply getCacheKey_Aa_BB).
    cbv zeta. by destruct (Z.leb_spec
      (now + orDefaultZ (TokenCache.expires_in tokenResponse) 3600 * 1000)
      (now' + 300000)); [lia|].
Qed.

Lemma token_cache_collision_witness :
  let response :=
    {| TokenCache.access_token := "secret"; TokenCache.token_type := JsUndefined;
       TokenCache.expires_in := JsValue 3600; TokenCache.scope := JsNull |} in
  (TokenCache.getToken
     (TokenCache.setToken ∅ DEFAULT_OAUTH_CONFIG ("team-" +:+ "Aa") response 0)
     DEFAULT_OAUTH_CONFIG ("team-" +:+ "BB") 1000).1 = Some "secret".
Proof.
  intros response.
  apply (token_cache_collision ∅ DEFAULT_OAUTH_CONFIG "team-" response 0 1000).
  simpl. lia.
Defined.

(** ** Validation of responses *)

Lemma typeof_string (v : Json) : typeof v = "string" ↔ ∃ s, v = JsStr s.
Proof.
  split.
  - destruct v; simpl; try discriminate. eauto.
  - by intros [s ->].
Qed.

Lemma validateOAuthResponse_object (props : gmap string Json)
    (config : OAuthConfig) :
  validateOAuthResponse (JsObj props) config = true ↔
  ∃ s, props !! schema_access_token (responseSchema config) = Some (JsStr s).
Proof.
  unfold validateOAuthResponse. cbv zeta. cbn [typeof notNull getProperty].
  rewrite bool_decide_eq_true_2 by done. cbn [andb].
  rewrite bool_decide_eq_true, typeof_string.
  destruct (props !! schema_access_token (responseSchema config)) as [v|]; simpl.
  - split; intros [s Hs]; exists s; congruence.
  - split; intros [s Hs]; discriminate.
Qed.

(** X16: [validateOAuthResponse] reads the property whose name is the
    value of [responseSchema.access_token].  Under [DEFAULT_OAUTH_CONFIG]
    that name is "string": a response is accepted exactly when it is an
    object with a string property called "string", so a token response
    that only carries [access_token] is rejected. *)
Theorem oauth_validation_default (response : Json) :
  (validateOAuthResponse response DEFAULT_OAUTH_CONFIG = true ↔
   ∃ props s, response = JsObj props ∧ props !! "string" = Some (JsStr s)) ∧
  (∀ props token,
     response = JsObj props → props !! "access_token" = Some (JsStr token) →
     props !! "string" = None →
     validateOAuthResponse response DEFAULT_OAUTH_CONFIG = false).
Proof.
  split.
  - destruct response as [| |b|z|s|items|props];
      try (split; [by cbn|by intros (? & ? & [=] & _)]).
    + rewrite (validateOAuthResponse_object props DEFAULT_OAUTH_CONFIG).
      cbn [DEFAULT_OAUTH_CONFIG responseSchema schema_access_token].
      split.
      * intros [s Hs]. eauto.
      * intros (props' & s & [= <-] & Hs). eauto.
  - intros props token -> _ Hnone. apply not_true_is_false.
    rewrite (validateOAuthResponse_object props DEFAULT_OAUTH_CONFIG).
    cbn [DEFAULT_OAUTH_CONFIG responseSchema schema_access_token].
    intros [s Hs]. congruence.
Qed.

Lemma oauth_validation_default_witness :
  validateOAuthResponse
    (JsObj {[ "access_token" := JsStr "tok" ]}) DEFAULT_OAUTH_CONFIG = false.
Proof.
  destruct (oauth_validation_default (JsObj {[ "access_token" := JsStr "tok" ]}))
    as [_ H].
  apply (H {[ "access_token" := JsStr "tok" ]} "tok"); [done|done|done].
Defined.

(** X17: [validateLLMResponse] throws instead of answering exactly when
    the response is an object whose [content] is an array that starts with
    null or undefined; otherwise it answers, and the answer is true exactly
    when [content] is an array whose first element has a string property
    [text] and the response has a string property [stop_reason]. *)
Theorem llm_validation (response : Json) :
  (validateLLMResponse response = ThrownTypeError ↔
   bool_decide (typeof response = "object") && notNull response = true ∧
   ∃ first rest, getProperty response "content" = JsArr (first :: rest) ∧
                 (first = JsUndef ∨ first = JsNul)) ∧
  (validateLLMResponse response = Returned true ↔
   bool_decide (typeof response = "object") && notNull response = true ∧
   ∃ first rest text stop,
     getProperty response "content" = JsArr (first :: rest) ∧
     getProperty first "text" = JsStr text ∧
     getProperty response "stop_reason" = JsStr stop).
Proof.
  unfold validateLLMResponse.
  destruct (bool_decide (typeof response = "object") && notNull response);
    [|split; split; [done|by intros [[=] _]|done|by intros [[=] _]]].
  destruct (getProperty response "content") as [| |b|z|s|items|props];
    try (split; split; [done|by intros (_ & ? & ? & [=] & _)
                       |done|by intros (_ & ? & ? & ? & ? & [=] & _)]).
  destruct items as [|first rest].
  - split; split; [done|by intros (_ & ? & ? & [=] & _)
                  |done|by intros (_ & ? & ? & ? & ? & [=] & _)].
  - cbn [length lookup list_lookup]. rewrite bool_decide_eq_true_2 by (simpl; lia).
    split.
    + split.
      * intros H. split; [done|]. exists first, rest. split; [done|].
        destruct first; try discriminate; auto.
      * intros (_ & first' & rest' & [= <- <-] & [->| ->]); done.
    + split.
      * intros H. split; [done|].
        assert (Hb : bool_decide (typeof (getProperty first "text") = "string") &&
                     bool_decide (typeof (getProperty response "stop_reason") =
                                  "string") = true)
          by (destruct first; try discriminate; by injection H).
        apply andb_true_iff in Hb as [Ht Hs].
        apply bool_decide_eq_true, typeof_string in Ht as [text Ht].
        apply bool_decide_eq_true, typeof_string in Hs as [stop Hs].
        exists first, rest, text, stop. done.
      * intros (_ & first' & rest' & text & stop & [= <- <-] & Ht & Hs).
        rewrite Ht, Hs. destruct first; try discriminate Ht; try done.
Qed.

(** ** The window handed to the dialog *)

Lemma sendToAPI_bounds (add : Q → Q → Q) (totalWeight : Q)
    (rect : option Math.Rect) :
  (0 <= (sendToAPI add totalWeight rect).1)%Q ∧
  ((sendToAPI add totalWeight rect).2 <= totalWeight)%Q.
Proof.
  destruct rect as [r|]; simpl.
  - split; [apply Q.le_max_l | apply Q.le_min_l].
  - split; [apply Qle_refl | apply Qle_refl].
Qed.

(** X18: whatever the addition of the code returns, the window [sendToAPI]
    takes from the viewport starts at or after 0 and ends at or before the
    total weight.  When the addition is monotone in its second argument and
    satisfies x + 0 = x and x + (-x) = 0 (as the addition of binary64
    numbers does), the window has start ≤ end if the total weight is not
    negative and the viewport, if there is one, has a width that is not
    negative and meets the range from 0 to the total weight.  A window with
    start ≤ end needs a total weight that is not negative and a viewport
    that starts at or before it. *)
Theorem viewport_window (add : Q → Q → Q) (totalWeight : Q)
    (rect : option Math.Rect) :
  let start := (sendToAPI add totalWeight rect).1 in
  let end_ := (sendToAPI add totalWeight rect).2 in
  ((0 <= start)%Q ∧ (end_ <= totalWeight)%Q) ∧
  ((∀ a b b', (b <= b')%Q → (add a b <= add a b')%Q) →
   (∀ a, add a 0 == a)%Q → (∀ a, add a (- a) == 0)%Q →
   (0 <= totalWeight)%Q →
   match rect with
   | Some r =>
       (0 <= Math.x (Math.size r))%Q ∧
       (Math.x (Math.origin r) <= totalWeight)%Q ∧
       (0 <= Math.x (Math.origin r) + Math.x (Math.size r))%Q
   | None => True
   end →
   (start <= end_)%Q) ∧
  ((start <= end_)%Q →
   (0 <= totalWeight)%Q ∧
   match rect with
   | Some r => (Math.x (Math.origin r) <= totalWeight)%Q
   | None => True
   end).
Proof.
  cbv zeta.
  destruct (sendToAPI_bounds add totalWeight rect) as [H0 H1].
  split; [done|]. split.
  - intros Hmono Hzero Hopp Htotal Hrect.
    destruct rect as [r|]; simpl; [|done].
    destruct Hrect as (Hsize & Horigin & Hsum).
    pose proof (Hmono (Math.x (Math.origin r)) _ _ Hsize) as Hle.
    assert (Hneg : (- Math.x (Math.origin r) <= Math.x (Math.size r))%Q) by lra.
    apply (Hmono (Math.x (Math.origin r))) in Hneg.
    pose proof (Hzero (Math.x (Math.origin r))).
    pose proof (Hopp (Math.x (Math.origin r))).
    apply Q.max_lub; apply Q.min_glb; try done; lra.
  - destruct rect as [r|]; simpl.
    + rewrite Q.max_lub_iff, !Q.min_glb_iff. tauto.
    + tauto.
Qed.

Lemma viewport_window_witness :
  let r := {| Math.origin := {| Math.x := 401 # 2; Math.y := 0 |};
              Math.size := {| Math.x := 400; Math.y := 1 |} |} in
  ((sendToAPI Qplus 1000 (Some r)).1 <= (sendToAPI Qplus 1000 (Some r)).2)%Q.
Proof.
  intros r.
  destruct (viewport_window Qplus 1000 (Some r)) as (_ & Hle & _).
  apply Hle.
  - intros a b b' Hb. lra.
  - intros a. lra.
  - intros a. lra.
  - done.
  - repeat split; by vm_compute.
Defined.


